(** * Graph engine of grafos.py: shallow embedding and verified properties

    The [Graph] class of [grafos.py] keeps three attributes: the flag
    [directed], the dictionary [adjacency_list] (vertex -> list of
    neighbours) and the dictionary [edge_weights] ((source, target) ->
    weight).  Its methods are embedded as computations in a small
    state-and-exception monad over that record: a method receives the
    object, may raise a Python exception, and hands the object back.

    Vertex identifiers are strings (the shell reads them from dialogs and
    the importer from text lines), weights are integers ([int(parts[2])],
    [askinteger]).  None of the modelled methods depends on the insertion
    order of a dictionary (they count, sum, look up and test membership),
    so both dictionaries are finite maps. *)

From Stdlib Require Import ZArith Lia Ascii String.
From stdpp Require Import base option list list_numbers gmap strings fin_maps.

Set Warnings "-clear-no-such-hyp".

Local Open Scope string_scope.
Local Open Scope Z_scope.

(** ** The object state *)

Record Graph : Type := mkGraph {
  directed : bool;
  adjacency_list : gmap string (list string);
  edge_weights : gmap (string * string) Z
}.

(** [Graph(directed)]: both dictionaries start empty. *)
Definition init (d : bool) : Graph := mkGraph d ∅ ∅.

(** ** State and exception monad *)

(** The Python exceptions the modelled methods can raise. *)
Inductive exn : Type := KeyError | IndexError | ValueError.

(** A call returns a value, raises, or (for the [while] loops, which are
    run with a step budget) exhausts its budget. *)
Inductive outcome (A : Type) : Type :=
  | Ok (a : A)
  | Raise (e : exn)
  | OutOfFuel.
Arguments Ok {A} a.
Arguments Raise {A} e.
Arguments OutOfFuel {A}.

Definition M (A : Type) : Type := Graph → outcome A * Graph.

Global Instance M_ret : MRet M := λ A a g, (Ok a, g).

(** An exception leaves the object as it was when it was raised. *)
Global Instance M_bind : MBind M := λ A B k m g,
  match m g with
  | (Ok a, g') => k a g'
  | (Raise e, g') => (Raise e, g')
  | (OutOfFuel, g') => (OutOfFuel, g')
  end.

Definition raise {A} (e : exn) : M A := λ g, (Raise e, g).
Definition out_of_fuel {A} : M A := λ g, (OutOfFuel, g).
(** Reading an attribute of [self]. *)
Definition reads {A} (f : Graph → A) : M A := λ g, (Ok (f g), g).
(** Updating an attribute of [self] in place. *)
Definition modify (f : Graph → Graph) : M unit := λ g, (Ok tt, f g).

(** Result and final object of a call. *)
Definition result {A} (m : M A) (g : Graph) : outcome A := (m g).1.
Definition exec {A} (m : M A) (g : Graph) : Graph := (m g).2.

(** ** Dictionary and list primitives *)

Definition set_adjacency (f : gmap string (list string) → gmap string (list string))
    (g : Graph) : Graph :=
  mkGraph (directed g) (f (adjacency_list g)) (edge_weights g).

Definition set_weights (f : gmap (string * string) Z → gmap (string * string) Z)
    (g : Graph) : Graph :=
  mkGraph (directed g) (adjacency_list g) (f (edge_weights g)).

(** [d[k]] on a local dictionary. *)
Definition dict_getitem {V} (d : gmap string V) (k : string) : M V :=
  match d !! k with
  | Some v => mret v
  | None => raise KeyError
  end.

(** [l[i]] on a list, for a non-negative index. *)
Definition list_getitem {A} (l : list A) (i : nat) : M A :=
  match l !! i with
  | Some x => mret x
  | None => raise IndexError
  end.

(** [vertex in self.adjacency_list] *)
Definition adjacency_contains (vertex : string) : M bool :=
  reads (λ g, bool_decide (is_Some (adjacency_list g !! vertex))).

(** [self.adjacency_list[vertex]] *)
Definition adjacency_getitem (vertex : string) : M (list string) :=
  o ← reads (λ g, adjacency_list g !! vertex);
  match o with
  | Some adj => mret adj
  | None => raise KeyError
  end.

(** [self.adjacency_list.get(vertex, [])] *)
Definition adjacency_get (vertex : string) : M (list string) :=
  reads (λ g, default [] (adjacency_list g !! vertex)).

(** [self.adjacency_list[vertex].append(x)] *)
Definition adjacency_append (vertex x : string) : M unit :=
  adj ← adjacency_getitem vertex;
  modify (set_adjacency <[vertex := (adj ++ [x])%list]>).

(** [self.edge_weights.get((source, target), 1)] *)
Definition edge_weight (g : Graph) (source target : string) : Z :=
  default 1 (edge_weights g !! (source, target)).

(** ** Mutation methods *)

Definition add_vertex (vertex : string) : M unit :=
  present ← adjacency_contains vertex;
  if negb present then modify (set_adjacency <[vertex := []]>) else mret tt.

Definition add_edge (source target : string) (weight : Z) : M unit :=
  has_source ← adjacency_contains source;
  (if negb has_source then add_vertex source else mret tt);;
  has_target ← adjacency_contains target;
  (if negb has_target then add_vertex target else mret tt);;
  adjacency_append source target;;
  modify (set_weights <[(source, target) := weight]>);;
  d ← reads directed;
  if negb d then
    adjacency_append target source;;
    modify (set_weights <[(target, source) := weight]>)
  else mret tt.

(** *** The text importer *)

(** The builtins [str.strip], [str.split] and [int] are not code of
    [grafos.py].  They are modelled below for ASCII text only, and the
    model is used only on lines that satisfy [ascii_text]; results about
    arbitrary text take the two builtins as parameters
    ([load_from_file_with]).

    Whitespace as [str.split] and [str.strip] see it among the ASCII
    characters: tab to carriage return, the four separators 28-31, and the
    space.  The whitespace characters outside ASCII (U+0085, U+00A0,
    U+3000, ...) are not modelled. *)
Definition is_space (c : ascii) : bool :=
  let n := nat_of_ascii c in
  ((9 <=? n)%nat && (n <=? 13)%nat) || ((28 <=? n)%nat && (n <=? 32)%nat).

(** [s.split()]: the maximal runs of non-whitespace characters.  [cur] is
    the run being read, reversed. *)
Fixpoint split_go (s : string) (cur : list ascii) : list string :=
  let flush (rest : list string) :=
    match cur with
    | [] => rest
    | _ => string_of_list_ascii (rev cur) :: rest
    end in
  match s with
  | EmptyString => flush []
  | String c s' =>
      if is_space c then flush (split_go s' []) else split_go s' (c :: cur)
  end.

(** [line.strip().split()]; stripping first changes nothing, since
    [split()] drops leading and trailing whitespace itself. *)
Definition split (line : string) : list string := split_go line [].

Definition digit_of (c : ascii) : option Z :=
  let n := nat_of_ascii c in
  if ((48 <=? n)%nat && (n <=? 57)%nat) then Some (Z.of_nat n - 48) else None.

(** The digit part of an integer literal: digits, single underscores only
    between digits. *)
Fixpoint int_digits (s : string) (acc : Z) (after_digit : bool) : option Z :=
  match s with
  | EmptyString => if after_digit then Some acc else None
  | String c s' =>
      match digit_of c with
      | Some d => int_digits s' (10 * acc + d) true
      | None =>
          if (nat_of_ascii c =? 95)%nat && after_digit
          then match s' with
               | EmptyString => None
               | String c' _ =>
                   match digit_of c' with
                   | Some _ => int_digits s' acc false
                   | None => None
                   end
               end
          else None
      end
  end.

(** [int(s)] on an ASCII token without whitespace: an optional sign
    followed by the digit part; [None] stands for [ValueError].  Decimal
    digits outside ASCII and the limit on the number of digits that some
    interpreter versions impose (4300) are not modelled. *)
Definition int (s : string) : option Z :=
  match s with
  | String c s' =>
      if (nat_of_ascii c =? 43)%nat then int_digits s' 0 false
      else if (nat_of_ascii c =? 45)%nat then Z.opp <$> int_digits s' 0 false
      else int_digits s 0 false
  | EmptyString => None
  end.

(** The body of the [for line in file] loop, with the ASCII model of the
    builtins. *)
Definition load_line (line : string) : M unit :=
  let parts := split line in
  source ← list_getitem parts 0;
  target ← list_getitem parts 1;
  field ← list_getitem parts 2;
  weight ← (match int field with
            | Some w => mret w
            | None => raise ValueError
            end);
  add_edge source target weight.

(** [load_from_file], on the lines of the opened file. *)
Fixpoint load_from_file (lines : list string) : M unit :=
  match lines with
  | [] => mret tt
  | line :: rest => load_line line;; load_from_file rest
  end.

(** ** Query methods *)

Definition is_eulerian : M (bool * bool) :=
  items ← reads (λ g, map_to_list (adjacency_list g));
  let odd_degree_vertices :=
    sum_list_with (λ _, 1%nat)
      (filter (λ item : string * list string, (length item.2 mod 2 ≠ 0)%nat) items) in
  if (odd_degree_vertices =? 0)%nat then mret (true, false)
  else if (odd_degree_vertices =? 2)%nat then mret (false, true)
  else mret (false, false).

Definition get_order : M nat :=
  reads (λ g, size (adjacency_list g)).

Definition get_size : M nat :=
  values ← reads (λ g, (map_to_list (adjacency_list g)).*2);
  d ← reads directed;
  mret (sum_list_with length values / (if negb d then 2 else 1))%nat.

Definition get_adjacent_vertices (vertex : string) : M (list string) :=
  adjacency_get vertex.

(** [get_degree] returns a dictionary for a directed graph and a number
    otherwise. *)
Inductive degree : Type :=
  | InOut (in_degree out_degree : nat)
  | Plain (n : nat).

Definition get_degree (vertex : string) : M degree :=
  d ← reads directed;
  if (d : bool) then
    adj ← adjacency_get vertex;
    let out_degree := length adj in
    values ← reads (λ g, (map_to_list (adjacency_list g)).*2);
    let in_degree :=
      sum_list_with (λ edges : list string,
                       if bool_decide (vertex ∈ edges) then 1 else 0)%nat values in
    mret (InOut in_degree out_degree)
  else
    adj ← adjacency_get vertex;
    mret (Plain (length adj)).

Definition are_adjacent (v1 v2 : string) : M bool :=
  adj ← adjacency_get v1;
  mret (bool_decide (v2 ∈ adj)).

(** ** Shortest paths *)

(** A value of the [distances] dictionary: an integer or
    [float('infinity')]. *)
Inductive dist : Type :=
  | Finite (d : Z)
  | Infinity.

(** [distance < distances[neighbor]] *)
Definition dist_lt (distance : Z) (known : dist) : bool :=
  match known with
  | Finite d => distance <? d
  | Infinity => true
  end.

(** [distances[end] == float('infinity')] *)
Definition is_infinity (d : dist) : bool :=
  match d with
  | Infinity => true
  | Finite _ => false
  end.

(** *** The priority queue

    [heapq] keeps the tuples [(distance, vertex)] in a binary heap ordered
    by Python's tuple comparison: by distance, then by vertex name.  That
    order is total, so [heappop] returns the one least tuple of the
    multiset of pushed tuples, whatever the layout of the heap array.  The
    queue is kept here as the sorted list of its tuples. *)
Definition entry_le (a b : Z * string) : bool :=
  (a.1 <? b.1) || ((a.1 =? b.1) && String.leb a.2 b.2).

Fixpoint heappush (heap : list (Z * string)) (item : Z * string) : list (Z * string) :=
  match heap with
  | [] => [item]
  | x :: heap' =>
      if entry_le item x then item :: x :: heap' else x :: heappush heap' item
  end.

Definition heappop (heap : list (Z * string)) : option ((Z * string) * list (Z * string)) :=
  match heap with
  | [] => None
  | x :: heap' => Some (x, heap')
  end.

(** The local variables of [dijkstra]. *)
Record locals : Type := mkLocals {
  distances : gmap string dist;
  predecessors : gmap string (option string);
  priority_queue : list (Z * string)
}.

(** The [for neighbor in self.adjacency_list[current_vertex]] loop. *)
Fixpoint relax (current_distance : Z) (current_vertex : string)
    (neighbors : list string) (st : locals) : M locals :=
  match neighbors with
  | [] => mret st
  | neighbor :: rest =>
      weight ← reads (λ g, edge_weight g current_vertex neighbor);
      let distance := current_distance + weight in
      known ← dict_getitem (distances st) neighbor;
      if dist_lt distance known then
        relax current_distance current_vertex rest
          (mkLocals (<[neighbor := Finite distance]> (distances st))
                    (<[neighbor := Some current_vertex]> (predecessors st))
                    (heappush (priority_queue st) (distance, neighbor)))
      else relax current_distance current_vertex rest st
  end.

(** The [while priority_queue] loop, run for at most [fuel] iterations. *)
Fixpoint dijkstra_loop (fuel : nat) (st : locals)
    : M (gmap string dist * gmap string (option string)) :=
  match fuel with
  | O => out_of_fuel
  | S fuel' =>
      match heappop (priority_queue st) with
      | None => mret (distances st, predecessors st)
      | Some ((current_distance, current_vertex), heap') =>
          neighbors ← adjacency_getitem current_vertex;
          st' ← relax current_distance current_vertex neighbors
                  (mkLocals (distances st) (predecessors st) heap');
          dijkstra_loop fuel' st'
      end
  end.

Definition dijkstra (fuel : nat) (start_vertex : string)
    : M (gmap string dist * gmap string (option string)) :=
  all_infinite ← reads (λ g, (λ _, Infinity) <$> adjacency_list g);
  let distances := <[start_vertex := Finite 0]> all_infinite in
  let priority_queue := [(0, start_vertex)] in
  predecessors ← reads (λ g, (λ _, @None string) <$> adjacency_list g);
  dijkstra_loop fuel (mkLocals distances predecessors priority_queue).

(** The [while predecessors[current_vertex] is not None] loop; it returns
    the path collected so far and the vertex it stopped at. *)
Fixpoint walk_back (fuel : nat) (predecessors : gmap string (option string))
    (path : list string) (current_vertex : string) : M (list string * string) :=
  match fuel with
  | O => out_of_fuel
  | S fuel' =>
      previous ← dict_getitem predecessors current_vertex;
      match previous with
      | None => mret (path, current_vertex)
      | Some vertex =>
          walk_back fuel' predecessors (current_vertex :: path) vertex
      end
  end.

(** The first component of the pair [shortest_path] returns: the distance
    read from the dictionary, or a message. *)
Inductive cost : Type :=
  | Cost (d : dist)
  | Message (text : string).

Definition shortest_path (fuel : nat) (start end_vertex : string)
    : M (cost * list string) :=
  '(distances, predecessors) ← dijkstra fuel start;
  at_end ← dict_getitem distances end_vertex;
  if is_infinity at_end then mret (Message "No path exists", [])
  else
    '(path, current_vertex) ← walk_back fuel predecessors [] end_vertex;
    let path := match path with
                | [] => path
                | _ :: _ => current_vertex :: path
                end in
    at_end ← dict_getitem distances end_vertex;
    mret (Cost at_end, path).

(** ** Sequences of mutations *)

Inductive op : Type :=
  | AddVertex (vertex : string)
  | AddEdge (source target : string) (weight : Z).

Definition run_op (o : op) : M unit :=
  match o with
  | AddVertex v => add_vertex v
  | AddEdge s t w => add_edge s t w
  end.

Fixpoint run_ops (ops : list op) : M unit :=
  match ops with
  | [] => mret tt
  | o :: rest => run_op o;; run_ops rest
  end.

(** The identifiers an operation mentions, and the number of edges a
    sequence adds. *)
Definition op_ids (o : op) : list string :=
  match o with
  | AddVertex v => [v]
  | AddEdge s t _ => [s; t]
  end.

Definition ids_of (ops : list op) : list string := ops ≫= op_ids.

Definition is_add_edge (o : op) : bool :=
  match o with
  | AddEdge _ _ _ => true
  | AddVertex _ => false
  end.

Definition edge_count (ops : list op) : nat := length (filter is_add_edge ops).

(** ** Well-formed graphs and paths *)

(** Every neighbour is itself a key of [adjacency_list]. *)
Definition closed (g : Graph) : Prop :=
  map_Forall (λ _ neighbors, Forall (λ v, is_Some (adjacency_list g !! v)) neighbors)
    (adjacency_list g).

(** No recorded weight is negative. *)
Definition nonneg (g : Graph) : Prop :=
  map_Forall (λ _ w, 0 ≤ w) (edge_weights g).

Global Instance closed_dec g : Decision (closed g).
Proof. unfold closed. apply _. Defined.

Global Instance nonneg_dec g : Decision (nonneg g).
Proof. unfold nonneg. apply _. Defined.

(** [edge g u v]: [v] occurs in the neighbour list of [u]. *)
Definition edge (g : Graph) (u v : string) : Prop :=
  ∃ neighbors, adjacency_list g !! u = Some neighbors ∧ v ∈ neighbors.

(** [path g s vs v d]: [vs] lists the vertices of a walk along edges of
    [g] from [s] to [v], and [d] is the sum of the weights of its edges,
    an edge without a weight entry counting 1. *)
Inductive path (g : Graph) (s : string) : list string → string → Z → Prop :=
  | path_start :
      is_Some (adjacency_list g !! s) → path g s [s] s 0
  | path_step vs u v d :
      path g s vs u d → edge g u v →
      path g s (vs ++ [v]) v (d + edge_weight g u v).

(** ** Closed forms of the mutations *)

(** The adjacency dictionary after [add_vertex]. *)
Definition ensure (v : string) (adj : gmap string (list string)) :
    gmap string (list string) :=
  match adj !! v with
  | Some _ => adj
  | None => <[v := []]> adj
  end.

(** The adjacency dictionary after a successful [append]. *)
Definition append (v x : string) (adj : gmap string (list string)) :
    gmap string (list string) :=
  match adj !! v with
  | Some l => <[v := (l ++ [x])%list]> adj
  | None => adj
  end.

(** The object after [add_edge]. *)
Definition after_add_edge (s t : string) (w : Z) (g : Graph) : Graph :=
  let g3 := set_adjacency (append s t)
              (set_adjacency (ensure t) (set_adjacency (ensure s) g)) in
  let g4 := set_weights <[(s, t) := w]> g3 in
  if directed g then g4
  else set_weights <[(t, s) := w]> (set_adjacency (append t s) g4).

(** [nbr adj u v]: [v] is listed under [u]. *)
Definition nbr (adj : gmap string (list string)) (u v : string) : Prop :=
  ∃ l, adj !! u = Some l ∧ v ∈ l.

(** Every listed neighbour lists the vertex back, and the two ordered
    pairs carry one weight. *)
Definition symmetric (g : Graph) : Prop :=
  ∀ u v, edge g u v →
    edge g v u ∧
    ∃ w, edge_weights g !! (u, v) = Some w ∧ edge_weights g !! (v, u) = Some w.

(** ** Degrees *)

(** The sum of the lengths of all neighbour lists. *)
Definition degree_sum (g : Graph) : nat :=
  sum_list_with length (map_to_list (adjacency_list g)).*2.

(** What [get_degree] answers for a vertex of an undirected graph. *)
Definition degree_of (g : Graph) (v : string) : nat :=
  match result (get_degree v) g with
  | Ok (Plain n) => n
  | _ => 0%nat
  end.

(** The number of vertices whose neighbour list has odd length. *)
Definition odd_degree_count (g : Graph) : nat :=
  size (filter (λ item : string * list string, Nat.odd (length item.2))
          (adjacency_list g)).

(** ** Example graphs *)

(** Three mutually connected vertices. *)
Definition triangle : Graph :=
  exec (add_edge "A" "B" 1;; add_edge "B" "C" 1;; add_edge "C" "A" 1) (init false).

(** The path A - B - C. *)
Definition path_graph : Graph :=
  exec (add_edge "A" "B" 1;; add_edge "B" "C" 1) (init false).

(** A centre of degree 3 with three leaves. *)
Definition star : Graph :=
  exec (add_edge "O" "A" 1;; add_edge "O" "B" 1;; add_edge "O" "C" 1) (init false).

(** The same edge added twice: both endpoints have degree 2. *)
Definition doubled_edge : Graph :=
  exec (add_edge "A" "B" 1;; add_edge "A" "B" 1) (init false).

(** Two disjoint triangles: a disconnected graph. *)
Definition two_triangles : Graph :=
  exec (add_edge "A" "B" 1;; add_edge "B" "C" 1;; add_edge "C" "A" 1;;
        add_edge "D" "E" 1;; add_edge "E" "F" 1;; add_edge "F" "D" 1) (init false).

(** The directed edges A -> B and A -> C: neighbour lists of lengths 2, 0
    and 0. *)
Definition directed_fork : Graph :=
  exec (add_edge "A" "B" 1;; add_edge "A" "C" 1) (init true).

(** The weighted graph A - B (1), B - C (2), A - C (5). *)
Definition weighted_triangle : Graph :=
  exec (add_edge "A" "B" 1;; add_edge "B" "C" 2;; add_edge "A" "C" 5) (init false).

(** ** Lines of an import file, in the ASCII model *)

(** What the loop body extracts from a line: the first three fields, the
    third read as an integer; or the exception the extraction raises. *)
Definition parse_line (line : string) : exn + (string * string * Z) :=
  match split line with
  | source :: target :: field :: _ =>
      match int field with
      | Some weight => inr (source, target, weight)
      | None => inl ValueError
      end
  | _ => inl IndexError
  end.

(** At least three fields, the third an integer literal. *)
Definition well_formed (line : string) : bool :=
  match parse_line line with
  | inr _ => true
  | inl _ => false
  end.

(** The edges the well-formed lines of a file describe, in order. *)
Definition edges_of (lines : list string) : list op :=
  omap (λ line, match parse_line line with
                | inr (s, t, w) => Some (AddEdge s t w)
                | inl _ => None
                end) lines.

(** ** Calls that leave the object alone *)

Definition read_only {A} (m : M A) : Prop := ∀ g, exec m g = g.

(** ** Invariant of Dijkstra's loops *)

(** [dle D v x]: vertex [v] has a finite entry in [D], at most [x]. *)
Definition dle (D : gmap string dist) (v : string) (x : Z) : Prop :=
  ∃ y, D !! v = Some (Finite y) ∧ y ≤ x.

(** [dpath g s D vs v d]: a path from [s] to [v] of weight [d] that
    repeats no vertex and on which every vertex has, in [D], an entry no
    larger than the weight of the path up to it. *)
Inductive dpath (g : Graph) (s : string) (D : gmap string dist) :
    list string → string → Z → Prop :=
  | dpath_start :
      dle D s 0 → dpath g s D [s] s 0
  | dpath_step vs u v d :
      dpath g s D vs u d → edge g u v → v ∉ vs →
      dle D v (d + edge_weight g u v) →
      dpath g s D (vs ++ [v]) v (d + edge_weight g u v).

(** The keys of [adjacency_list]. *)
Definition keys (g : Graph) : list string := (map_to_list (adjacency_list g)).*1.

(** An upper bound of all edge weights. *)
Definition max_weight (g : Graph) : Z :=
  foldr Z.max 1 (map_to_list (edge_weights g)).*2.

(** No path without a repeated vertex weighs more than this. *)
Definition weight_bound (g : Graph) : Z :=
  max_weight g * Z.of_nat (length (keys g)).

(** The measure that bounds the iterations of the [while] loop: each
    queue entry counts 1, each finite distance its value, each infinite
    one the bound plus 1. *)
Definition potential_of (g : Graph) (o : option dist) : Z :=
  match o with
  | Some (Finite y) => y
  | Some Infinity => weight_bound g + 1
  | None => 0
  end.

Definition potential (g : Graph) (D : gmap string dist) : Z :=
  foldr (λ k acc, potential_of g (D !! k) + acc) 0 (keys g).

Definition measure (g : Graph) (st : locals) : Z :=
  Z.of_nat (length (priority_queue st)) + potential g (distances st).

(** A budget that suffices for [dijkstra] from any start vertex. *)
Definition enough_fuel (g : Graph) : nat :=
  Z.to_nat (2 + Z.of_nat (length (keys g)) * (weight_bound g + 1)).

(** The invariant, while the neighbours [todo] of the popped entry
    [(cd, cv)] are still to be examined; between two iterations of the
    [while] loop [todo] is empty. *)
Record inv (g : Graph) (s : string) (cd : Z) (cv : string)
    (todo : list string) (st : locals) : Prop := mkInv {
  inv_dom : dom (distances st) = dom (adjacency_list g);
  inv_start : distances st !! s = Some (Finite 0)
              ∧ predecessors st !! s = Some None;
  inv_queue : ∀ d u, (d, u) ∈ priority_queue st →
                ∃ vs, dpath g s (distances st) vs u d;
  inv_dist : ∀ u y, distances st !! u = Some (Finite y) →
               ∃ vs, dpath g s (distances st) vs u y;
  inv_relaxed : ∀ u y v, distances st !! u = Some (Finite y) → edge g u v →
                  (y, u) ∈ priority_queue st
                  ∨ dle (distances st) v (y + edge_weight g u v)
                  ∨ (u = cv ∧ y = cd ∧ v ∈ todo)
}.

(** Two vertices listed under each other, without weight entries. *)
Definition unweighted_pair : Graph :=
  mkGraph false {["A" := ["B"]; "B" := ["A"]]} ∅.

(** The weighted triangle and a separate vertex D. *)
Definition triangle_and_vertex : Graph :=
  exec (add_vertex "D") weighted_triangle.

(** ** Invariant of the [predecessors] dictionary *)

(** [stamp] records, for every vertex, when its entries were last written
    ([bound] is the current time).  A recorded predecessor [u] of [v] is a
    neighbour source of [v] whose distance plus the weight of the edge does
    not exceed the distance of [v]; where the two distances are equal, [u]
    was written before [v].  A vertex without predecessor is the start or
    has an infinite distance. *)
Record pinv (g : Graph) (s : string) (stamp : string → nat) (bound : nat)
    (st : locals) : Prop := mkPinv {
  pinv_dom : dom (predecessors st) = dom (adjacency_list g);
  pinv_bound : ∀ v, (stamp v ≤ bound)%nat;
  pinv_some : ∀ v u, predecessors st !! v = Some (Some u) →
                edge g u v
                ∧ ∃ x y, distances st !! u = Some (Finite x)
                         ∧ distances st !! v = Some (Finite y)
                         ∧ x + edge_weight g u v ≤ y
                         ∧ (x < y ∨ (stamp u < stamp v)%nat);
  pinv_none : ∀ v, predecessors st !! v = Some None →
                v = s ∨ distances st !! v = Some Infinity
}.

(** [above D stamp u v]: [u] comes before [v] in the order by distance,
    then by time of writing. *)
Definition above (D : gmap string dist) (stamp : string → nat) (u v : string) : Prop :=
  ∃ x y, D !! u = Some (Finite x) ∧ D !! v = Some (Finite y)
         ∧ (x < y ∨ (x = y ∧ (stamp u < stamp v)%nat)).

(** [back P u l v]: following the predecessors [P] backwards from [v]
    leads to [u]; [l] lists the vertices after [u] on the way, [v] last. *)
Inductive back (P : gmap string (option string)) (u : string) :
    list string → string → Prop :=
  | back_here : back P u [] u
  | back_step l x v :
      back P u l x → P !! v = Some (Some x) → back P u (l ++ [v]) v.

(** ** What a sequence of mutations leaves in the dictionaries *)

(** The entries an operation appends to the neighbour list of [v], in a
    graph whose flag is [d]. *)
Definition op_neighbors (d : bool) (v : string) (o : op) : list string :=
  match o with
  | AddVertex _ => []
  | AddEdge s t _ =>
      (if bool_decide (s = v) then [t] else [])
      ++ (if negb d && bool_decide (t = v) then [s] else [])
  end.

Definition neighbors_of (d : bool) (v : string) (ops : list op) : list string :=
  ops ≫= op_neighbors d v.

(** Whether an operation writes the weight of the ordered pair [(a, b)],
    and the weight the last such operation of a sequence writes. *)
Definition op_weight (d : bool) (a b : string) (o : op) : option Z :=
  match o with
  | AddVertex _ => None
  | AddEdge s t w =>
      if bool_decide ((s, t) = (a, b)) || (negb d && bool_decide ((t, s) = (a, b)))
      then Some w else None
  end.

Fixpoint last_weight (d : bool) (a b : string) (ops : list op) : option Z :=
  match ops with
  | [] => None
  | o :: rest =>
      match last_weight d a b rest with
      | Some w => Some w
      | None => op_weight d a b o
      end
  end.

(** The sources of the [add_edge] calls with target [v], in call order. *)
Definition sources_of (v : string) (ops : list op) : list string :=
  omap (λ o, match o with
             | AddEdge s t _ => if bool_decide (t = v) then Some s else None
             | AddVertex _ => None
             end) ops.

(** ** The flag switch of the shell *)

(** What [GraphApp.toggle_directed] does to the graph: it stores the state
    of the check box, [self.graph.directed = value]; the check box itself
    and the redrawing of the text widget are outside the model. *)
Definition toggle_directed (value : bool) : M unit :=
  modify (λ g, mkGraph value (adjacency_list g) (edge_weights g)).

(** An operation that records no negative weight. *)
Definition op_nonneg (o : op) : Prop :=
  match o with
  | AddEdge _ _ w => 0 ≤ w
  | AddVertex _ => True
  end.

(** ** Fields and whitespace of an import line *)

(** A field: not empty, no whitespace character. *)
Definition token (t : string) : bool :=
  negb (String.eqb t "")
  && forallb (λ c, negb (is_space c)) (list_ascii_of_string t).

(** Whitespace only, possibly empty. *)
Definition blank (w : string) : bool :=
  forallb is_space (list_ascii_of_string w).

(** Whitespace only, at least one character. *)
Definition separator (w : string) : bool :=
  negb (String.eqb w "") && blank w.

(** The line feed that ends a line read from a file. *)
Definition newline : string := String (ascii_of_nat 10) EmptyString.

(** ** The importer over the builtins *)

(** The importer with the two builtins it calls as parameters:
    [str_split line] stands for [line.strip().split()] and [int_of s] for
    [int(s)], [None] when it raises [ValueError].  Whatever the builtins do
    with non-ASCII whitespace, non-ASCII digits or very long numerals is
    left to the parameters. *)
Section importer.
Variable str_split : string → list string.
Variable int_of : string → option Z.

(** The body of the [for line in file] loop. *)
Definition load_line_with (line : string) : M unit :=
  let parts := str_split line in
  source ← list_getitem parts 0;
  target ← list_getitem parts 1;
  field ← list_getitem parts 2;
  weight ← (match int_of field with
            | Some w => mret w
            | None => raise ValueError
            end);
  add_edge source target weight.

(** [load_from_file], on the lines of the opened file. *)
Fixpoint load_from_file_with (lines : list string) : M unit :=
  match lines with
  | [] => mret tt
  | line :: rest => load_line_with line;; load_from_file_with rest
  end.

(** What the loop body extracts from a line, or the exception the
    extraction raises. *)
Definition parse_line_with (line : string) : exn + (string * string * Z) :=
  match str_split line with
  | source :: target :: field :: _ =>
      match int_of field with
      | Some weight => inr (source, target, weight)
      | None => inl ValueError
      end
  | _ => inl IndexError
  end.

(** [split()] yields at least three fields and [int()] accepts the third. *)
Definition well_formed_with (line : string) : bool :=
  match parse_line_with line with
  | inr _ => true
  | inl _ => false
  end.

(** [split()] yields fewer than three fields. *)
Definition too_short_with (line : string) : bool :=
  bool_decide (length (str_split line) < 3)%nat.

(** [split()] yields a third field that [int()] rejects. *)
Definition bad_weight_with (line : string) : bool :=
  match str_split line !! 2%nat with
  | Some field => bool_decide (int_of field = None)
  | None => false
  end.

(** The edges the well-formed lines of a file describe, in order. *)
Definition edges_of_with (lines : list string) : list op :=
  omap (λ line, match parse_line_with line with
                | inr (s, t, w) => Some (AddEdge s t w)
                | inl _ => None
                end) lines.
End importer.

(** A line on which the ASCII model of the builtins is exact: ASCII
    characters only, and short enough for any limit on numerals. *)
Definition ascii_text (line : string) : bool :=
  (String.length line <=? 4300)%nat
  && forallb (λ c, (nat_of_ascii c <? 128)%nat) (list_ascii_of_string line).

(** * Proofs *)

(** ** Running the monad *)

Ltac munfold :=
  unfold result, exec, mbind, M_bind, mret, M_ret, reads, modify, raise,
    out_of_fuel in *.

Lemma add_vertex_run v g :
  add_vertex v g = (Ok tt, set_adjacency (ensure v) g).
Proof.
  unfold add_vertex, adjacency_contains, set_adjacency, ensure. munfold.
  destruct (adjacency_list g !! v) as [l|] eqn:E; simpl; [by destruct g|done].
Qed.

Lemma adjacency_append_run v x g :
  is_Some (adjacency_list g !! v) →
  adjacency_append v x g = (Ok tt, set_adjacency (append v x) g).
Proof.
  intros [l Hl]. unfold adjacency_append, adjacency_getitem, append, set_adjacency.
  munfold. by rewrite Hl.
Qed.

Lemma ensure_lookup_same v adj : is_Some (ensure v adj !! v).
Proof.
  unfold ensure. destruct (adj !! v) eqn:E; [by rewrite E|].
  rewrite lookup_insert_eq. eauto.
Qed.

Lemma ensure_is_Some v u adj : is_Some (adj !! u) → is_Some (ensure v adj !! u).
Proof.
  unfold ensure. destruct (adj !! v) eqn:E; [done|].
  intros H. destruct (decide (v = u)) as [->|].
  - rewrite lookup_insert_eq. eauto.
  - by rewrite lookup_insert_ne.
Qed.

Lemma append_is_Some v x u adj : is_Some (adj !! u) → is_Some (append v x adj !! u).
Proof.
  unfold append. destruct (adj !! v) eqn:E; [|done].
  intros H. destruct (decide (v = u)) as [->|].
  - rewrite lookup_insert_eq. eauto.
  - by rewrite lookup_insert_ne.
Qed.

Lemma add_vertex_if_absent_run v g :
  (if negb (bool_decide (is_Some (adjacency_list g !! v)))
   then add_vertex v else mret tt) g
  = (Ok tt, set_adjacency (ensure v) g).
Proof.
  destruct (adjacency_list g !! v) eqn:E; simpl.
  - unfold set_adjacency, ensure. rewrite E. by destruct g.
  - apply add_vertex_run.
Qed.

Lemma add_edge_run s t w g :
  add_edge s t w g = (Ok tt, after_add_edge s t w g).
Proof.
  unfold add_edge, after_add_edge.
  unfold mbind at 1, M_bind at 1. unfold adjacency_contains at 1, reads at 1.
  unfold mbind at 1, M_bind at 1. rewrite add_vertex_if_absent_run.
  generalize (eq_refl : directed (set_adjacency (ensure s) g) = directed g).
  generalize (ensure_lookup_same s (adjacency_list g)).
  change (ensure s (adjacency_list g))
    with (adjacency_list (set_adjacency (ensure s) g)).
  generalize (set_adjacency (ensure s) g) as g1. intros g1 Hs1 Hd1.
  unfold mbind at 1, M_bind at 1. unfold adjacency_contains at 1, reads at 1.
  unfold mbind at 1, M_bind at 1. rewrite add_vertex_if_absent_run.
  unfold mbind at 1, M_bind at 1. rewrite adjacency_append_run
    by (by apply ensure_is_Some).
  munfold. simpl. rewrite Hd1.
  destruct (directed g) eqn:Ed; simpl; [done|].
  rewrite adjacency_append_run; [done|].
  simpl. apply append_is_Some, ensure_lookup_same.
Qed.

(** ** Effect of the mutations on the dictionaries *)

Lemma ensure_lookup_ne v u adj : v ≠ u → ensure v adj !! u = adj !! u.
Proof.
  intros Hne. unfold ensure. destruct (adj !! v); [done|].
  by rewrite lookup_insert_ne.
Qed.

Lemma ensure_lookup_Some v u l adj :
  adj !! u = Some l → ensure v adj !! u = Some l.
Proof.
  intros Hl. unfold ensure. destruct (adj !! v) eqn:E; [done|].
  rewrite lookup_insert_ne; [done|]. intros ->. congruence.
Qed.

Lemma append_lookup_same v x l adj :
  adj !! v = Some l → append v x adj !! v = Some (l ++ [x])%list.
Proof. intros Hl. unfold append. rewrite Hl. apply lookup_insert_eq. Qed.

Lemma append_lookup_ne v x u adj : v ≠ u → append v x adj !! u = adj !! u.
Proof.
  intros Hne. unfold append. destruct (adj !! v); [|done].
  by rewrite lookup_insert_ne.
Qed.

Lemma dom_ensure v adj : dom (ensure v adj) = {[v]} ∪ dom adj.
Proof.
  unfold ensure. destruct (adj !! v) eqn:E.
  - apply elem_of_dom_2 in E. set_solver.
  - apply dom_insert_L.
Qed.

Lemma dom_append v x adj : dom (append v x adj) = dom adj.
Proof.
  unfold append. destruct (adj !! v) eqn:E; [|done].
  rewrite dom_insert_L. apply elem_of_dom_2 in E. set_solver.
Qed.

Lemma nbr_ensure x adj u v : nbr (ensure x adj) u v ↔ nbr adj u v.
Proof.
  unfold nbr, ensure. destruct (adj !! x) eqn:E; [done|].
  destruct (decide (x = u)) as [->|Hne].
  - rewrite lookup_insert_eq, E. split; intros (l & Hl & Hin); simplify_eq.
    by apply elem_of_nil in Hin.
  - by rewrite lookup_insert_ne.
Qed.

Lemma nbr_append a b adj u v :
  is_Some (adj !! a) →
  nbr (append a b adj) u v ↔ nbr adj u v ∨ (u = a ∧ v = b).
Proof.
  intros [l Hl]. unfold nbr. destruct (decide (a = u)) as [->|Hne].
  - rewrite (append_lookup_same _ _ l) by done. rewrite Hl. split.
    + intros (l' & ? & Hin); simplify_eq.
      apply elem_of_app in Hin as [Hin|Hin]; [left; eauto|].
      apply list_elem_of_singleton in Hin. by right.
    + intros [(l' & ? & Hin)|[_ ->]]; simplify_eq; eexists; split; eauto;
        apply elem_of_app; [by left|right; by apply list_elem_of_singleton].
  - rewrite append_lookup_ne by done. split; [by left|].
    intros [?|[? _]]; [done|congruence].
Qed.

Lemma edge_after_add_edge s t w g u v :
  edge (after_add_edge s t w g) u v ↔
  edge g u v ∨ (u = s ∧ v = t) ∨ (directed g = false ∧ u = t ∧ v = s).
Proof.
  unfold after_add_edge.
  assert (Hs : is_Some (ensure t (ensure s (adjacency_list g)) !! s))
    by apply ensure_is_Some, ensure_lookup_same.
  assert (Ht : is_Some (ensure t (ensure s (adjacency_list g)) !! t))
    by apply ensure_lookup_same.
  destruct (directed g); unfold edge; simpl.
  - fold (nbr (append s t (ensure t (ensure s (adjacency_list g)))) u v).
    rewrite nbr_append, !nbr_ensure by done. unfold nbr. naive_solver.
  - fold (nbr (append t s (append s t (ensure t (ensure s (adjacency_list g))))) u v).
    rewrite nbr_append by (by apply append_is_Some).
    rewrite nbr_append, !nbr_ensure by done. unfold nbr. naive_solver.
Qed.

Lemma weights_after_add_edge s t w g :
  edge_weights (after_add_edge s t w g) =
  if directed g then <[(s, t) := w]> (edge_weights g)
  else <[(t, s) := w]> (<[(s, t) := w]> (edge_weights g)).
Proof. unfold after_add_edge. by destruct (directed g). Qed.

Lemma dom_after_add_edge s t w g :
  dom (adjacency_list (after_add_edge s t w g))
  = {[s; t]} ∪ dom (adjacency_list g).
Proof.
  unfold after_add_edge. destruct (directed g); simpl;
    rewrite ?dom_append, !dom_ensure; set_solver.
Qed.

Lemma directed_after_add_edge s t w g :
  directed (after_add_edge s t w g) = directed g.
Proof. unfold after_add_edge. by destruct (directed g) eqn:E. Qed.

Lemma run_op_run o g :
  run_op o g = (Ok tt, exec (run_op o) g).
Proof.
  destruct o; unfold exec; simpl; by rewrite ?add_vertex_run, ?add_edge_run.
Qed.

Lemma run_ops_run ops g :
  run_ops ops g = (Ok tt, exec (run_ops ops) g).
Proof.
  revert g. induction ops as [|o ops IH]; intros g; [done|].
  unfold exec. simpl. unfold mbind, M_bind.
  rewrite run_op_run. by rewrite IH.
Qed.

Lemma exec_run_ops_cons o ops g :
  exec (run_ops (o :: ops)) g = exec (run_ops ops) (exec (run_op o) g).
Proof.
  unfold exec at 1. simpl. unfold mbind, M_bind.
  by rewrite run_op_run, run_ops_run.
Qed.

Lemma exec_run_ops_app ops1 ops2 g :
  exec (run_ops (ops1 ++ ops2)) g = exec (run_ops ops2) (exec (run_ops ops1) g).
Proof.
  revert g. induction ops1 as [|o ops1 IH]; intros g; [done|].
  change ((o :: ops1) ++ ops2)%list with (o :: (ops1 ++ ops2))%list.
  by rewrite !exec_run_ops_cons, IH.
Qed.

Lemma exec_add_vertex v g :
  exec (add_vertex v) g = set_adjacency (ensure v) g.
Proof. unfold exec. by rewrite add_vertex_run. Qed.

Lemma exec_add_edge s t w g :
  exec (add_edge s t w) g = after_add_edge s t w g.
Proof. unfold exec. by rewrite add_edge_run. Qed.

Lemma directed_run_ops ops g : directed (exec (run_ops ops) g) = directed g.
Proof.
  revert g. induction ops as [|o ops IH]; intros g; [done|].
  rewrite exec_run_ops_cons, IH. destruct o; cbn [run_op].
  - by rewrite exec_add_vertex.
  - by rewrite exec_add_edge, directed_after_add_edge.
Qed.

(** ** Adjacency and weights of undirected graphs *)

Lemma are_adjacent_run v1 v2 g :
  are_adjacent v1 v2 g
  = (Ok (bool_decide (v2 ∈ default [] (adjacency_list g !! v1))), g).
Proof. reflexivity. Qed.

Lemma are_adjacent_edge v1 v2 g :
  result (are_adjacent v1 v2) g = Ok true ↔ edge g v1 v2.
Proof.
  unfold result. rewrite are_adjacent_run. simpl. unfold edge. split.
  - intros [= H]. apply bool_decide_eq_true in H.
    destruct (adjacency_list g !! v1) as [l|]; simpl in H; [eauto|].
    by apply elem_of_nil in H.
  - intros (l & Hl & Hin). rewrite Hl. simpl. by rewrite bool_decide_true.
Qed.

Lemma symmetric_init d : symmetric (init d).
Proof. intros u v (l & Hl & _). simpl in Hl. by rewrite lookup_empty in Hl. Qed.

Lemma symmetric_add_vertex x g : symmetric g → symmetric (exec (add_vertex x) g).
Proof.
  intros Hsym u v. rewrite exec_add_vertex. unfold edge. simpl.
  fold (nbr (ensure x (adjacency_list g)) u v).
  fold (nbr (ensure x (adjacency_list g)) v u).
  rewrite !nbr_ensure. apply Hsym.
Qed.

Lemma symmetric_add_edge s t w g :
  directed g = false → symmetric g → symmetric (exec (add_edge s t w) g).
Proof.
  intros Hd Hsym u v. rewrite exec_add_edge, !edge_after_add_edge.
  rewrite weights_after_add_edge, Hd.
  intros [He|[[-> ->]|(_ & -> & ->)]].
  - destruct (Hsym u v He) as (Hrev & x & Huv & Hvu). split; [by left|].
    destruct (decide ((u, v) = (t, s))) as [[= -> ->]|Hne1].
    { exists w. rewrite lookup_insert_eq. split; [done|].
      destruct (decide ((s, t) = (t, s))) as [[= ->]|?].
      - by rewrite lookup_insert_eq.
      - rewrite lookup_insert_ne by done. by rewrite lookup_insert_eq. }
    destruct (decide ((u, v) = (s, t))) as [[= -> ->]|Hne2].
    { exists w. rewrite lookup_insert_ne by done. rewrite lookup_insert_eq.
      by rewrite lookup_insert_eq. }
    exists x. rewrite !lookup_insert_ne by congruence. done.
  - split; [right; right; done|]. exists w.
    rewrite lookup_insert_eq. split; [|done].
    destruct (decide ((t, s) = (s, t))) as [[= ->]|?].
    + by rewrite lookup_insert_eq.
    + rewrite lookup_insert_ne by done. by rewrite lookup_insert_eq.
  - split; [right; left; done|]. exists w.
    rewrite lookup_insert_eq. split; [done|].
    destruct (decide ((t, s) = (s, t))) as [[= ->]|?].
    + by rewrite lookup_insert_eq.
    + rewrite lookup_insert_ne by done. by rewrite lookup_insert_eq.
Qed.

Lemma symmetric_run_ops ops g :
  directed g = false → symmetric g → symmetric (exec (run_ops ops) g).
Proof.
  revert g. induction ops as [|o ops IH]; intros g Hd Hsym; [done|].
  rewrite exec_run_ops_cons. destruct o; cbn [run_op]; apply IH.
  - by rewrite exec_add_vertex.
  - by apply symmetric_add_vertex.
  - by rewrite exec_add_edge, directed_after_add_edge.
  - by apply symmetric_add_edge.
Qed.

(** C5. In a graph created undirected and grown by any sequence of
    [add_vertex]/[add_edge] calls, a further [add_edge(u, v, w)] makes
    [are_adjacent(u, v)] and [are_adjacent(v, u)] both true and stores [w]
    under both [(u, v)] and [(v, u)]; and at every point of the sequence
    each adjacency has its reverse adjacency, with one weight present under
    both ordered pairs. *)
Theorem undirected_edges_are_paired (ops : list op) (u v : string) (w : Z) :
  let g := exec (run_ops ops) (init false) in
  let g' := exec (add_edge u v w) g in
  (result (are_adjacent u v) g' = Ok true
   ∧ result (are_adjacent v u) g' = Ok true
   ∧ edge_weights g' !! (u, v) = Some w
   ∧ edge_weights g' !! (v, u) = Some w)
  ∧ (∀ a b, result (are_adjacent a b) g = Ok true →
       result (are_adjacent b a) g = Ok true
       ∧ ∃ x, edge_weights g !! (a, b) = Some x
              ∧ edge_weights g !! (b, a) = Some x).
Proof.
  intros g g'.
  assert (Hd : directed g = false) by (subst g; by rewrite directed_run_ops).
  split.
  - subst g'. rewrite !are_adjacent_edge, exec_add_edge.
    rewrite !edge_after_add_edge, weights_after_add_edge, Hd.
    split; [right; left; done|]. split; [right; right; done|].
    rewrite lookup_insert_eq. split; [|done].
    destruct (decide ((v, u) = (u, v))) as [[= ->]|?].
    + by rewrite lookup_insert_eq.
    + rewrite lookup_insert_ne by done. by rewrite lookup_insert_eq.
  - intros a b. rewrite !are_adjacent_edge.
    apply symmetric_run_ops; [done|apply symmetric_init].
Qed.

Lemma undirected_edges_are_paired_witness :
  let g := exec (run_ops [AddEdge "A" "B" 7; AddVertex "C"]) (init false) in
  result (are_adjacent "B" "A") g = Ok true
  ∧ ∃ x, edge_weights g !! ("A", "B") = Some x
         ∧ edge_weights g !! ("B", "A") = Some x.
Proof.
  apply (proj2 (undirected_edges_are_paired
                  [AddEdge "A" "B" 7; AddVertex "C"] "C" "D" 1) "A" "B").
  vm_compute. reflexivity.
Defined.

(** ** Graphs built through the methods are well formed *)

Lemma closed_edges g :
  closed g ↔ ∀ u v, edge g u v → v ∈ dom (adjacency_list g).
Proof.
  unfold closed, edge. split.
  - intros Hc u v (l & Hl & Hin). specialize (Hc u l Hl). simpl in Hc.
    rewrite Forall_forall in Hc. apply elem_of_dom. by apply Hc.
  - intros He u l Hl. simpl. apply Forall_forall. intros v Hin.
    apply elem_of_dom. apply (He u v). eauto.
Qed.

Lemma closed_run_ops ops g : closed g → closed (exec (run_ops ops) g).
Proof.
  revert g. induction ops as [|o ops IH]; intros g Hc; [done|].
  rewrite exec_run_ops_cons. apply IH. destruct o; cbn [run_op].
  - rewrite exec_add_vertex. apply closed_edges. intros u v.
    unfold edge. simpl. fold (nbr (ensure vertex (adjacency_list g)) u v).
    rewrite nbr_ensure, dom_ensure. intros He.
    pose proof (proj1 (closed_edges g) Hc u v He). set_solver.
  - rewrite exec_add_edge. apply closed_edges. intros u v.
    rewrite edge_after_add_edge, dom_after_add_edge.
    intros [He|[[-> ->]|(_ & -> & ->)]]; [|set_solver..].
    pose proof (proj1 (closed_edges g) Hc u v He). set_solver.
Qed.

Lemma closed_init d : closed (init d).
Proof. apply map_Forall_empty. Qed.

Lemma nonneg_run_ops ops g :
  Forall (λ o, match o with AddEdge _ _ w => 0 ≤ w | AddVertex _ => True end) ops →
  nonneg g → nonneg (exec (run_ops ops) g).
Proof.
  intros Hops. revert g. induction Hops as [|o ops Ho _ IH]; intros g Hn; [done|].
  rewrite exec_run_ops_cons. apply IH. destruct o as [v|a b w]; cbn [run_op].
  - by rewrite exec_add_vertex.
  - rewrite exec_add_edge. unfold nonneg. rewrite weights_after_add_edge.
    destruct (directed g); repeat apply map_Forall_insert_2; done.
Qed.

(** ** Order *)

Lemma dom_run_ops ops g :
  dom (adjacency_list (exec (run_ops ops) g))
  = list_to_set (ids_of ops) ∪ dom (adjacency_list g).
Proof.
  revert g. induction ops as [|o ops IH]; intros g.
  - simpl. set_solver.
  - rewrite exec_run_ops_cons, IH. unfold ids_of. simpl.
    rewrite list_to_set_app_L. destruct o; cbn [run_op op_ids].
    + rewrite exec_add_vertex. simpl. rewrite dom_ensure. set_solver.
    + rewrite exec_add_edge, dom_after_add_edge. set_solver.
Qed.

(** C7. After any sequence of [add_vertex] and [add_edge] calls on an
    empty graph, [get_order] returns the number of distinct identifiers
    passed as vertex, source or target. *)
Theorem order_counts_distinct_identifiers (d : bool) (ops : list op) :
  result get_order (exec (run_ops ops) (init d))
  = Ok (length (remove_dups (ids_of ops))).
Proof.
  unfold result, get_order, reads. simpl. f_equal.
  rewrite <- (size_dom (D := gset string)), dom_run_ops. simpl.
  rewrite dom_empty_L, (right_id_L ∅ (∪)).
  rewrite <- (size_list_to_set (C := gset string)) by apply NoDup_remove_dups.
  f_equal. apply set_eq. intros x.
  by rewrite !elem_of_list_to_set, elem_of_remove_dups.
Qed.

(** ** Size and degree sums *)

Lemma get_size_run g :
  get_size g
  = (Ok (degree_sum g / (if negb (directed g) then 2 else 1))%nat, g).
Proof. reflexivity. Qed.

Lemma values_sum_insert (adj : gmap string (list string)) v l :
  (sum_list_with length (map_to_list (<[v := l]> adj)).*2
   + length (default [] (adj !! v))
   = sum_list_with length (map_to_list adj).*2 + length l)%nat.
Proof.
  destruct (adj !! v) as [old|] eqn:E; simpl.
  - rewrite <- (insert_delete_id adj v old) at 2 by done.
    rewrite <- (insert_delete_eq adj v l).
    rewrite !map_to_list_insert by apply lookup_delete_eq.
    csimpl. lia.
  - rewrite map_to_list_insert by done. csimpl. lia.
Qed.

Lemma degree_sum_ensure v g :
  degree_sum (set_adjacency (ensure v) g) = degree_sum g.
Proof.
  unfold degree_sum, ensure. simpl.
  destruct (adjacency_list g !! v) eqn:E; [done|].
  pose proof (values_sum_insert (adjacency_list g) v []) as H.
  rewrite E in H. simpl in H. lia.
Qed.

Lemma degree_sum_append v x g :
  is_Some (adjacency_list g !! v) →
  degree_sum (set_adjacency (append v x) g) = S (degree_sum g).
Proof.
  intros [l Hl]. unfold degree_sum, append. simpl. rewrite Hl.
  pose proof (values_sum_insert (adjacency_list g) v (l ++ [x])) as H.
  rewrite Hl in H. simpl in H. rewrite length_app in H. simpl in H. lia.
Qed.

Lemma degree_sum_set_weights f g : degree_sum (set_weights f g) = degree_sum g.
Proof. reflexivity. Qed.

Lemma degree_sum_add_edge s t w g :
  degree_sum (after_add_edge s t w g)
  = (degree_sum g + (if directed g then 1 else 2))%nat.
Proof.
  unfold after_add_edge.
  assert (Hs : is_Some (ensure t (ensure s (adjacency_list g)) !! s))
    by apply ensure_is_Some, ensure_lookup_same.
  assert (Ht : is_Some (ensure t (ensure s (adjacency_list g)) !! t))
    by apply ensure_lookup_same.
  destruct (directed g).
  - rewrite degree_sum_set_weights, degree_sum_append by done.
    rewrite !degree_sum_ensure. lia.
  - rewrite degree_sum_set_weights, degree_sum_append
      by (simpl; by apply append_is_Some).
    rewrite degree_sum_set_weights, degree_sum_append by done.
    rewrite !degree_sum_ensure. lia.
Qed.

Lemma degree_sum_run_ops ops g :
  degree_sum (exec (run_ops ops) g)
  = (degree_sum g + (if directed g then 1 else 2) * edge_count ops)%nat.
Proof.
  revert g. induction ops as [|o ops IH]; intros g.
  - change (edge_count []) with 0%nat. change (exec (run_ops []) g) with g. lia.
  - rewrite exec_run_ops_cons, IH. destruct o; cbn [run_op].
    + rewrite exec_add_vertex, degree_sum_ensure. simpl.
      unfold edge_count. rewrite filter_cons_False by (simpl; tauto). done.
    + rewrite exec_add_edge, degree_sum_add_edge, directed_after_add_edge.
      unfold edge_count. rewrite filter_cons_True by done. simpl.
      destruct (directed g); lia.
Qed.

Lemma degree_of_undirected g v l :
  directed g = false → adjacency_list g !! v = Some l →
  degree_of g v = length l.
Proof.
  intros Hd Hl. unfold degree_of, result, get_degree, adjacency_get. munfold.
  rewrite Hd. simpl. by rewrite Hl.
Qed.

Lemma degree_of_sum g :
  directed g = false →
  sum_list_with (degree_of g) (map_to_list (adjacency_list g)).*1 = degree_sum g.
Proof.
  intros Hd. unfold degree_sum.
  assert (H : Forall (λ item, adjacency_list g !! item.1 = Some item.2)
                (map_to_list (adjacency_list g))).
  { apply Forall_forall. intros [k l] Hin. by apply elem_of_map_to_list in Hin. }
  induction H as [|[k l] items Hk _ IH]; [done|].
  csimpl in *. by rewrite IH, (degree_of_undirected g k l).
Qed.

(** C6. [get_size] returns half the sum of the neighbour-list lengths
    (floor division) on an undirected graph and the sum itself on a
    directed one.  After any sequence of [add_vertex]/[add_edge] calls on an
    empty undirected graph containing [k] calls of [add_edge], the degrees
    of all vertices sum to [2 * k] and [get_size] returns [k]; this holds
    for every such sequence, so in particular when the [k] edges are
    distinct. *)
Theorem size_is_half_degree_sum (g : Graph) (ops : list op) :
  result get_size g
  = Ok (if directed g then degree_sum g else degree_sum g / 2)%nat
  ∧ (let h := exec (run_ops ops) (init false) in
     let k := edge_count ops in
     sum_list_with (degree_of h) (map_to_list (adjacency_list h)).*1 = (2 * k)%nat
     ∧ degree_sum h = (2 * k)%nat
     ∧ result get_size h = Ok k).
Proof.
  split.
  - unfold result. rewrite get_size_run. cbn [fst].
    destruct (directed g); cbn [negb]; [by rewrite Nat.div_1_r|done].
  - intros h k. subst h k.
    assert (Hsum : degree_sum (exec (run_ops ops) (init false))
                   = (2 * edge_count ops)%nat).
    { rewrite degree_sum_run_ops. unfold degree_sum. simpl.
      rewrite map_to_list_empty. simpl. lia. }
    split; [|split; [done|]].
    + rewrite degree_of_sum by (by rewrite directed_run_ops). done.
    + unfold result. rewrite get_size_run. cbn [fst].
      rewrite directed_run_ops. cbn [init directed negb]. rewrite Hsum.
      f_equal. rewrite Nat.mul_comm. by rewrite Nat.div_mul.
Qed.

(** ** Eulerian classification *)

Lemma odd_degree_count_list g :
  odd_degree_count g
  = sum_list_with (λ _, 1%nat)
      (filter (λ item : string * list string, (length item.2 mod 2 ≠ 0)%nat)
         (map_to_list (adjacency_list g))).
Proof.
  unfold odd_degree_count. rewrite map_filter_alt.
  rewrite map_size_list_to_map.
  - generalize (map_to_list (adjacency_list g)). intros items.
    induction items as [|[k l] items IH]; [done|].
    rewrite !filter_cons. cbn [snd].
    assert (Hodd : Nat.odd (length l) ↔ (length l mod 2 ≠ 0)%nat).
    { rewrite Is_true_true, Nat.odd_spec. unfold Nat.Odd.
      split.
      - intros [m Hm]. rewrite Hm, Nat.add_comm, Nat.mul_comm, Nat.Div0.mod_add. done.
      - intros Hmod. exists (length l / 2)%nat.
        pose proof (Nat.div_mod_eq (length l) 2).
        pose proof (Nat.mod_upper_bound (length l) 2). lia. }
    destruct (decide (Nat.odd (length l))) as [Ho|Ho];
      destruct (decide (length l mod 2 ≠ 0)%nat) as [Hm|Hm];
      cbn [length sum_list_with]; rewrite ?IH; try done; tauto.
  - apply (sublist_NoDup _ (map_to_list (adjacency_list g)).*1).
    + apply NoDup_fst_map_to_list.
    + apply fmap_sublist, sublist_filter.
Qed.

Lemma is_eulerian_run g :
  is_eulerian g
  = (Ok (if (odd_degree_count g =? 0)%nat then (true, false)
         else if (odd_degree_count g =? 2)%nat then (false, true)
         else (false, false)), g).
Proof.
  rewrite odd_degree_count_list. unfold is_eulerian. munfold.
  by repeat case_match.
Qed.

(** C4. [is_eulerian] counts the vertices whose neighbour list has odd
    length and answers (true, false) when there is none, (false, true)
    when there are exactly two, and (false, false) otherwise; the answer
    does not depend on the [directed] flag or on connectivity, and
    repeated edges count with their multiplicity.  A triangle is reported
    Eulerian, the path A - B - C semi-Eulerian, and a star with a centre of
    degree 3 neither. *)
Theorem is_eulerian_by_odd_degree_count (g : Graph) (d : bool) :
  result is_eulerian g
  = Ok (if (odd_degree_count g =? 0)%nat then (true, false)
        else if (odd_degree_count g =? 2)%nat then (false, true)
        else (false, false))
  ∧ result is_eulerian (mkGraph d (adjacency_list g) (edge_weights g))
    = result is_eulerian g
  ∧ result is_eulerian triangle = Ok (true, false)
  ∧ result is_eulerian path_graph = Ok (false, true)
  ∧ result is_eulerian star = Ok (false, false)
  ∧ result is_eulerian doubled_edge = Ok (true, false)
  ∧ result is_eulerian two_triangles = Ok (true, false)
  ∧ result is_eulerian directed_fork = Ok (true, false).
Proof.
  split; [|split].
  - unfold result. by rewrite is_eulerian_run.
  - unfold result. by rewrite !is_eulerian_run.
  - repeat split; vm_compute; reflexivity.
Qed.

(** ** The text importer *)

Section importer_correct.
Variable str_split : string → list string.
Variable int_of : string → option Z.

Lemma load_line_with_run line g :
  load_line_with str_split int_of line g
  = match parse_line_with str_split int_of line with
    | inr (s, t, w) => (Ok tt, after_add_edge s t w g)
    | inl e => (Raise e, g)
    end.
Proof.
  unfold load_line_with, parse_line_with, list_getitem.
  destruct (str_split line) as [|s [|t [|f rest]]]; try reflexivity.
  cbn [lookup list_lookup]. munfold.
  destruct (int_of f); [|reflexivity]. apply add_edge_run.
Qed.

Lemma edges_of_with_cons line lines :
  edges_of_with str_split int_of (line :: lines)
  = match parse_line_with str_split int_of line with
    | inr (s, t, w) => AddEdge s t w :: edges_of_with str_split int_of lines
    | inl _ => edges_of_with str_split int_of lines
    end.
Proof.
  unfold edges_of_with. simpl.
  by destruct (parse_line_with str_split int_of line) as [e|[[s t] w]].
Qed.

Lemma load_from_file_with_good lines g :
  forallb (well_formed_with str_split int_of) lines = true →
  load_from_file_with str_split int_of lines g
  = (Ok tt, exec (run_ops (edges_of_with str_split int_of lines)) g)
  ∧ length (edges_of_with str_split int_of lines) = length lines.
Proof.
  revert g. induction lines as [|line lines IH]; intros g Hwf;
    [split; reflexivity|].
  cbn [forallb] in Hwf. apply andb_prop in Hwf as [Hline Hrest].
  cbn [load_from_file_with]. unfold mbind, M_bind. rewrite load_line_with_run.
  rewrite edges_of_with_cons. unfold well_formed_with in Hline.
  destruct (parse_line_with str_split int_of line) as [e|[[s t] w]]; [done|].
  destruct (IH (after_add_edge s t w g) Hrest) as [-> Hlen].
  rewrite exec_run_ops_cons. cbn [run_op]. rewrite exec_add_edge.
  cbn [length]. by rewrite Hlen.
Qed.

Lemma malformed_parse_with line :
  too_short_with str_split line || bad_weight_with str_split int_of line = true →
  parse_line_with str_split int_of line
  = inl (if too_short_with str_split line then IndexError else ValueError).
Proof.
  unfold too_short_with, bad_weight_with, parse_line_with.
  destruct (str_split line) as [|s [|t [|f rest]]];
    cbn [length lookup list_lookup];
    try (rewrite bool_decide_true by lia; done).
  rewrite bool_decide_false by lia. cbn [orb].
  intros H. apply bool_decide_eq_true in H. by rewrite H.
Qed.

Lemma load_from_file_with_app good lines g :
  forallb (well_formed_with str_split int_of) good = true →
  load_from_file_with str_split int_of (good ++ lines) g
  = load_from_file_with str_split int_of lines
      (exec (load_from_file_with str_split int_of good) g).
Proof.
  revert g. induction good as [|line good IH]; intros g Hwf; [done|].
  cbn [forallb] in Hwf. apply andb_prop in Hwf as [Hline Hrest].
  change ((line :: good) ++ lines)%list with (line :: (good ++ lines))%list.
  unfold exec. cbn [load_from_file_with]. unfold mbind, M_bind.
  rewrite load_line_with_run. unfold well_formed_with in Hline.
  destruct (parse_line_with str_split int_of line) as [e|[[s t] w]]; [done|].
  rewrite (IH _ Hrest). unfold exec.
  destruct (load_from_file_with_good good (after_add_edge s t w g) Hrest)
    as [-> _].
  done.
Qed.
End importer_correct.

(** The importer with the ASCII model of the builtins is the instance of
    the importer over the builtins at that model. *)
Lemma load_from_file_with_model lines :
  load_from_file_with split int lines = load_from_file lines.
Proof. induction lines as [|line lines IH]; [done|]. simpl. by rewrite IH. Qed.

Lemma load_line_run line g :
  load_line line g
  = match parse_line line with
    | inr (s, t, w) => (Ok tt, after_add_edge s t w g)
    | inl e => (Raise e, g)
    end.
Proof. exact (load_line_with_run split int line g). Qed.

Lemma load_from_file_good lines g :
  forallb well_formed lines = true →
  load_from_file lines g = (Ok tt, exec (run_ops (edges_of lines)) g)
  ∧ length (edges_of lines) = length lines.
Proof.
  rewrite <- load_from_file_with_model.
  exact (load_from_file_with_good split int lines g).
Qed.

Lemma load_from_file_app good lines g :
  forallb well_formed good = true →
  load_from_file (good ++ lines) g
  = load_from_file lines (exec (load_from_file good) g).
Proof.
  rewrite <- !load_from_file_with_model.
  exact (load_from_file_with_app split int good lines g).
Qed.

(** C8 (as amended). Whatever [line.strip().split()] and [int()] do,
    [load_from_file] adds one edge per line as long as every line splits
    into at least three fields of which [int()] accepts the third (further
    fields are ignored).  At the first line that splits into fewer than
    three fields ([IndexError]) or whose third field [int()] rejects
    ([ValueError]) the load fails with that exception; the remaining lines
    are not read, and the edges of all earlier lines stay in the graph. *)
Theorem load_fails_at_first_short_or_non_integer_line
    (str_split : string → list string) (int_of : string → option Z)
    (good : list string) (bad : string) (rest : list string) (g : Graph) :
  forallb (well_formed_with str_split int_of) good = true →
  too_short_with str_split bad || bad_weight_with str_split int_of bad = true →
  load_from_file_with str_split int_of good g
  = (Ok tt, exec (run_ops (edges_of_with str_split int_of good)) g)
  ∧ length (edges_of_with str_split int_of good) = length good
  ∧ load_from_file_with str_split int_of (good ++ bad :: rest) g
    = (Raise (if too_short_with str_split bad then IndexError else ValueError),
       exec (run_ops (edges_of_with str_split int_of good)) g).
Proof.
  intros Hgood Hbad.
  destruct (load_from_file_with_good str_split int_of good g Hgood) as [Hrun Hlen].
  split; [done|]. split; [done|].
  rewrite load_from_file_with_app by done. unfold exec at 1. rewrite Hrun.
  cbn [snd load_from_file_with]. unfold mbind, M_bind.
  rewrite load_line_with_run, (malformed_parse_with _ _ bad Hbad). done.
Qed.

Lemma load_fails_at_first_short_or_non_integer_line_witness :
  load_from_file_with split int ["A B 1"; "B C 2"] (init false)
  = (Ok tt, exec (run_ops (edges_of_with split int ["A B 1"; "B C 2"])) (init false))
  ∧ length (edges_of_with split int ["A B 1"; "B C 2"]) = 2%nat
  ∧ load_from_file_with split int
      (["A B 1"; "B C 2"] ++ "A C five" :: ["C D 4"]) (init false)
    = (Raise (if too_short_with split "A C five" then IndexError else ValueError),
       exec (run_ops (edges_of_with split int ["A B 1"; "B C 2"])) (init false)).
Proof.
  apply (load_fails_at_first_short_or_non_integer_line split int
           ["A B 1"; "B C 2"] "A C five" ["C D 4"] (init false));
    vm_compute; reflexivity.
Defined.

(** A line with a fourth field does not have the expected field count,
    yet it is imported: the load succeeds and the edge is added. *)
Lemma line_with_extra_field_is_imported :
  length (split "A B 1 extra") ≠ 3%nat
  ∧ load_from_file ["A B 1 extra"] (init false)
    = (Ok tt, exec (add_edge "A" "B" 1) (init false)).
Proof. split; [vm_compute; lia|vm_compute; reflexivity]. Qed.

(** ** Queries leave the object unchanged *)

Lemma read_only_ret {A} (a : A) : read_only (mret a).
Proof. done. Qed.

Lemma read_only_raise {A} e : read_only (raise (A := A) e).
Proof. done. Qed.

Lemma read_only_out_of_fuel {A} : read_only (out_of_fuel (A := A)).
Proof. done. Qed.

Lemma read_only_reads {A} (f : Graph → A) : read_only (reads f).
Proof. done. Qed.

Lemma read_only_bind {A B} (m : M A) (k : A → M B) :
  read_only m → (∀ a, read_only (k a)) → read_only (m ≫= k).
Proof.
  intros Hm Hk g. specialize (Hm g). unfold exec in *. munfold.
  destruct (m g) as [[a| |] g']; simpl in Hm; subst g'; [apply Hk|done|done].
Qed.

Lemma read_only_dict_getitem {V} (d : gmap string V) k :
  read_only (dict_getitem d k).
Proof. unfold dict_getitem. by destruct (d !! k). Qed.

Lemma read_only_adjacency_getitem v : read_only (adjacency_getitem v).
Proof.
  apply read_only_bind; [apply read_only_reads|]. by intros [l|].
Qed.

Create HintDb frame discriminated.
#[local] Hint Resolve read_only_ret read_only_raise read_only_out_of_fuel
  read_only_reads read_only_dict_getitem read_only_adjacency_getitem : frame.

Lemma read_only_relax cd cv neighbors st :
  read_only (relax cd cv neighbors st).
Proof.
  revert st. induction neighbors as [|n rest IH]; intros st; simpl.
  - auto with frame.
  - apply read_only_bind; [auto with frame|]. intros w.
    apply read_only_bind; [auto with frame|]. intros known.
    destruct (dist_lt (cd + w) known); apply IH.
Qed.

Lemma read_only_dijkstra_loop fuel st : read_only (dijkstra_loop fuel st).
Proof.
  revert st. induction fuel as [|fuel IH]; intros st; simpl.
  - auto with frame.
  - destruct (heappop (priority_queue st)) as [[[cd cv] heap']|];
      [|auto with frame].
    apply read_only_bind; [auto with frame|]. intros neighbors.
    apply read_only_bind; [apply read_only_relax|]. intros st'. apply IH.
Qed.

Lemma read_only_dijkstra fuel start : read_only (dijkstra fuel start).
Proof.
  unfold dijkstra. apply read_only_bind; [auto with frame|]. intros ?.
  apply read_only_bind; [auto with frame|]. intros ?.
  apply read_only_dijkstra_loop.
Qed.

Lemma read_only_walk_back fuel preds path current :
  read_only (walk_back fuel preds path current).
Proof.
  revert path current. induction fuel as [|fuel IH]; intros path current; simpl.
  - auto with frame.
  - apply read_only_bind; [auto with frame|]. intros [v|]; [apply IH|].
    auto with frame.
Qed.

Lemma read_only_shortest_path fuel start end_vertex :
  read_only (shortest_path fuel start end_vertex).
Proof.
  unfold shortest_path.
  apply read_only_bind; [apply read_only_dijkstra|]. intros [ds ps].
  apply read_only_bind; [auto with frame|]. intros at_end.
  destruct (is_infinity at_end); [auto with frame|].
  apply read_only_bind; [apply read_only_walk_back|]. intros [path current].
  apply read_only_bind; auto with frame.
Qed.

(** C10. Every query ([get_order], [get_size], [get_adjacent_vertices],
    [get_degree], [are_adjacent], [is_eulerian], [dijkstra] and
    [shortest_path], whatever they return or raise) hands the graph back
    with [directed], [adjacency_list] and [edge_weights] unchanged, while
    [add_vertex], [add_edge] and [load_from_file] can change it. *)
Theorem queries_leave_graph_unchanged
    (g : Graph) (fuel : nat) (u v : string) :
  (exec get_order g = g
   ∧ exec get_size g = g
   ∧ exec (get_adjacent_vertices v) g = g
   ∧ exec (get_degree v) g = g
   ∧ exec (are_adjacent u v) g = g
   ∧ exec is_eulerian g = g
   ∧ exec (dijkstra fuel u) g = g
   ∧ exec (shortest_path fuel u v) g = g)
  ∧ (exec (add_vertex "A") (init false) ≠ init false
     ∧ exec (add_edge "A" "B" 1) (init false) ≠ init false
     ∧ exec (load_from_file ["A B 1"]) (init false) ≠ init false).
Proof.
  split.
  - repeat split; try reflexivity.
    + unfold exec, get_degree. munfold. by destruct (directed g).
    + unfold exec. by rewrite is_eulerian_run.
    + apply read_only_dijkstra.
    + apply read_only_shortest_path.
  - repeat split; intros H;
      apply (f_equal (λ h, size (adjacency_list h))) in H;
      vm_compute in H; discriminate.
Qed.

(** ** Dijkstra's algorithm *)

Lemma elem_of_heappush heap item x :
  x ∈ heappush heap item ↔ x = item ∨ x ∈ heap.
Proof.
  induction heap as [|y heap IH]; simpl.
  - rewrite list_elem_of_singleton, elem_of_nil. tauto.
  - destruct (entry_le item y); rewrite !elem_of_cons, ?IH; tauto.
Qed.

Lemma length_heappush heap item :
  length (heappush heap item) = S (length heap).
Proof.
  induction heap as [|y heap IH]; simpl; [done|].
  destruct (entry_le item y); simpl; by rewrite ?IH.
Qed.

Lemma dijkstra_loop_fuel_mono fuel fuel' st g r g' :
  (fuel ≤ fuel')%nat →
  r ≠ OutOfFuel →
  dijkstra_loop fuel st g = (r, g') →
  dijkstra_loop fuel' st g = (r, g').
Proof.
  intros Hle Hr. revert fuel' st g Hle.
  induction fuel as [|fuel IH]; intros fuel' st g Hle.
  { intros [= <- _]. done. }
  destruct fuel' as [|fuel']; [lia|]. simpl.
  destruct (heappop (priority_queue st)) as [[[cd cv] heap']|]; [|done].
  unfold mbind, M_bind.
  destruct (adjacency_getitem cv g) as [[nbrs| |] g1]; try done.
  destruct (relax cd cv nbrs _ g1) as [[st'| |] g2]; try done.
  apply IH. lia.
Qed.

Section dijkstra_correct.
Variable g : Graph.
Variable s : string.
Hypothesis g_nonneg : nonneg g.

Lemma edge_weight_nonneg u v : 0 ≤ edge_weight g u v.
Proof.
  unfold edge_weight. destruct (edge_weights g !! (u, v)) as [w|] eqn:E; simpl.
  - by apply (g_nonneg (u, v)).
  - lia.
Qed.

Lemma max_weight_ge_1 : 1 ≤ max_weight g.
Proof.
  unfold max_weight. induction ((map_to_list (edge_weights g)).*2); simpl; lia.
Qed.

Lemma edge_weight_le_max u v : edge_weight g u v ≤ max_weight g.
Proof.
  unfold edge_weight. destruct (edge_weights g !! (u, v)) as [w|] eqn:E; simpl.
  - apply elem_of_map_to_list in E. unfold max_weight.
    apply (list_elem_of_fmap_2 snd) in E. simpl in E.
    induction E as [x l|x y l Hin IH]; simpl; lia.
  - apply max_weight_ge_1.
Qed.

Lemma elem_of_keys v : v ∈ keys g ↔ is_Some (adjacency_list g !! v).
Proof.
  unfold keys. rewrite list_elem_of_fmap. split.
  - intros ([k l] & -> & Hin). apply elem_of_map_to_list in Hin. eauto.
  - intros [l Hl]. exists (v, l). split; [done|]. by apply elem_of_map_to_list.
Qed.

Lemma NoDup_keys : NoDup (keys g).
Proof. apply NoDup_fst_map_to_list. Qed.

Lemma edge_target_key u v :
  closed g → edge g u v → is_Some (adjacency_list g !! v).
Proof.
  intros Hclosed (l & Hl & Hin). specialize (Hclosed u l Hl). simpl in Hclosed.
  rewrite Forall_forall in Hclosed. by apply Hclosed.
Qed.

(** *** Dominated paths *)

Lemma dle_weaken D v x x' : dle D v x → x ≤ x' → dle D v x'.
Proof. intros (y & Hy & Hle) Hx. exists y. split; [done|lia]. Qed.

Lemma dpath_end D vs v d : dpath g s D vs v d → dle D v d.
Proof. by destruct 1. Qed.

Lemma dpath_nonneg D vs v d : dpath g s D vs v d → 0 ≤ d.
Proof.
  induction 1 as [|vs u v d _ IH _ _ _]; [done|].
  pose proof (edge_weight_nonneg u v). lia.
Qed.

Lemma dpath_dominates D vs v d x :
  dpath g s D vs v d → x ∈ vs → dle D x d.
Proof.
  induction 1 as [Hs|vs u v d Hp IH _ _ Hv]; intros Hin.
  - apply list_elem_of_singleton in Hin as ->. done.
  - apply elem_of_app in Hin as [Hin|Hin].
    + apply (dle_weaken _ _ d); [by apply IH|].
      pose proof (edge_weight_nonneg u v). lia.
    + apply list_elem_of_singleton in Hin as ->. done.
Qed.

Lemma dpath_mono D D' vs v d :
  (∀ u x, dle D u x → dle D' u x) →
  dpath g s D vs v d → dpath g s D' vs v d.
Proof.
  intros Hmono. induction 1; [apply dpath_start|apply dpath_step]; auto.
Qed.

Lemma dpath_path D vs v d :
  is_Some (adjacency_list g !! s) →
  dpath g s D vs v d → path g s vs v d ∧ NoDup vs.
Proof.
  intros Hs. induction 1 as [|vs u v d _ [IHp IHn] He Hnin _].
  - split; [by apply path_start|]. apply NoDup_singleton.
  - split; [by apply path_step|]. apply NoDup_app. split; [done|].
    split; [|apply NoDup_singleton].
    intros x Hx Hx'. apply list_elem_of_singleton in Hx' as ->. done.
Qed.

Lemma dpath_keys D vs v d x :
  dom D = dom (adjacency_list g) →
  dpath g s D vs v d → x ∈ vs → x ∈ keys g.
Proof.
  intros Hdom Hp Hin. apply elem_of_keys, elem_of_dom. rewrite <- Hdom.
  destruct (dpath_dominates _ _ _ _ _ Hp Hin) as (y & Hy & _).
  apply elem_of_dom. eauto.
Qed.

Lemma dpath_length D vs v d :
  dom D = dom (adjacency_list g) →
  dpath g s D vs v d → (length vs ≤ length (keys g))%nat.
Proof.
  intros Hdom Hp. apply submseteq_length, NoDup_submseteq.
  - induction Hp as [|vs u v d _ IH _ Hnin _]; [apply NoDup_singleton|].
    apply NoDup_app. split; [done|]. split; [|apply NoDup_singleton].
    intros x Hx Hx'. apply list_elem_of_singleton in Hx' as ->. done.
  - intros x. by apply dpath_keys with (D := D) (v := v) (d := d).
Qed.

Lemma dpath_weight D vs v d :
  dpath g s D vs v d → d ≤ max_weight g * (Z.of_nat (length vs) - 1).
Proof.
  induction 1 as [|vs u v d _ IH _ _ _]; simpl; [lia|].
  rewrite length_app. simpl. pose proof (edge_weight_le_max u v). nia.
Qed.

Lemma dpath_bound D vs v d :
  dom D = dom (adjacency_list g) →
  dpath g s D vs v d → 0 ≤ d ≤ weight_bound g.
Proof.
  intros Hdom Hp. split; [by eapply dpath_nonneg|].
  pose proof (dpath_weight _ _ _ _ Hp).
  pose proof (dpath_length _ _ _ _ Hdom Hp).
  pose proof max_weight_ge_1. unfold weight_bound. nia.
Qed.

(** *** The potential *)

Lemma weight_bound_nonneg : 0 ≤ weight_bound g.
Proof. unfold weight_bound. pose proof max_weight_ge_1. nia. Qed.

Lemma potential_list_insert (l : list string) (D : gmap string dist) n v :
  NoDup l →
  foldr (λ k acc, potential_of g (<[n := v]> D !! k) + acc) 0 l
  = foldr (λ k acc, potential_of g (D !! k) + acc) 0 l
    + (if bool_decide (n ∈ l)
       then potential_of g (Some v) - potential_of g (D !! n) else 0).
Proof.
  induction 1 as [|k l Hnin _ IH]; [done|]. cbn [foldr]. rewrite IH.
  destruct (decide (n = k)) as [->|Hne].
  - rewrite lookup_insert_eq. rewrite bool_decide_false by done.
    rewrite bool_decide_true by apply list_elem_of_here. lia.
  - rewrite lookup_insert_ne by done.
    destruct (decide (n ∈ l)) as [Hin|Hin].
    + rewrite !bool_decide_true; [lia|by apply list_elem_of_further|done].
    + rewrite !bool_decide_false; [lia| |done].
      intros H. apply elem_of_cons in H as [?|?]; done.
Qed.

Lemma potential_insert D n v :
  n ∈ keys g →
  potential g (<[n := v]> D)
  = potential g D + potential_of g (Some v) - potential_of g (D !! n).
Proof.
  intros Hin. unfold potential.
  rewrite potential_list_insert by apply NoDup_keys.
  rewrite bool_decide_true by done. lia.
Qed.

Lemma potential_nonneg D :
  (∀ u y, D !! u = Some (Finite y) → 0 ≤ y) → 0 ≤ potential g D.
Proof.
  intros HD. unfold potential. induction (keys g) as [|k l IH]; [done|].
  cbn [foldr]. pose proof weight_bound_nonneg.
  destruct (D !! k) as [[y|]|] eqn:E; simpl; [|lia|lia].
  specialize (HD k y E). lia.
Qed.

Lemma potential_le D :
  (∀ u, potential_of g (D !! u) ≤ weight_bound g + 1) →
  potential g D ≤ Z.of_nat (length (keys g)) * (weight_bound g + 1).
Proof.
  intros HD. unfold potential. induction (keys g) as [|k l IH]; [done|].
  cbn [foldr length]. specialize (HD k). lia.
Qed.

(** *** One neighbour *)

Lemma dist_lt_false d known :
  dist_lt d known = false → ∃ y, known = Finite y ∧ y ≤ d.
Proof.
  destruct known as [y|]; simpl; [|done].
  intros H. exists y. split; [done|lia].
Qed.

Lemma inv_skip cd cv n rest st known :
  inv g s cd cv (n :: rest) st →
  distances st !! n = Some known →
  dist_lt (cd + edge_weight g cv n) known = false →
  inv g s cd cv rest st.
Proof.
  intros [Hdom Hstart Hq Hd Hr] Hn Hlt.
  apply dist_lt_false in Hlt as (y & -> & Hy).
  split; try done. intros u z v Hu He.
  destruct (Hr u z v Hu He) as [?|[?|(-> & -> & Hin)]]; [by left|by right; left|].
  apply elem_of_cons in Hin as [->|Hin]; [|by right; right].
  right; left. by exists y.
Qed.

Lemma dle_insert_lower D n d known u x :
  D !! n = Some known → dist_lt d known = true →
  dle D u x → dle (<[n := Finite d]> D) u x.
Proof.
  intros Hn Hlt (y & Hy & Hle). destruct (decide (n = u)) as [->|Hne].
  - exists d. rewrite lookup_insert_eq. split; [done|].
    rewrite Hn in Hy. injection Hy as ->. simpl in Hlt. lia.
  - exists y. by rewrite lookup_insert_ne.
Qed.

Lemma inv_update cd cv n rest st known vs :
  inv g s cd cv (n :: rest) st →
  edge g cv n →
  dpath g s (distances st) vs cv cd →
  distances st !! n = Some known →
  dist_lt (cd + edge_weight g cv n) known = true →
  let st1 := mkLocals (<[n := Finite (cd + edge_weight g cv n)]> (distances st))
                      (<[n := Some cv]> (predecessors st))
                      (heappush (priority_queue st) (cd + edge_weight g cv n, n)) in
  inv g s cd cv rest st1
  ∧ measure g st1 ≤ measure g st
  ∧ dpath g s (distances st1) vs cv cd.
Proof.
  intros [Hdom Hstart Hq Hd Hr] He Hp Hn Hlt st1.
  set (d := cd + edge_weight g cv n) in *.
  pose proof (edge_weight_nonneg cv n) as Hw.
  pose proof (dpath_nonneg _ _ _ _ Hp) as Hcd.
  assert (Hmono : ∀ u x, dle (distances st) u x → dle (distances st1) u x)
    by (intros u x; by apply dle_insert_lower with known).
  assert (Hnin : n ∉ vs).
  { intros Hin. destruct (dpath_dominates _ _ _ _ _ Hp Hin) as (y & Hy & Hle).
    rewrite Hn in Hy. injection Hy as ->. simpl in Hlt. lia. }
  assert (Hnew : dpath g s (distances st1) (vs ++ [n]) n d).
  { apply dpath_step; [by apply dpath_mono with (distances st)|done|done|].
    exists d. simpl. rewrite lookup_insert_eq. split; [done|lia]. }
  assert (Hdom1 : dom (distances st1) = dom (adjacency_list g)).
  { simpl. rewrite dom_insert_L, Hdom.
    assert (n ∈ dom (adjacency_list g))
      by (rewrite <- Hdom; apply elem_of_dom; eauto).
    set_solver. }
  assert (Hns : n ≠ s).
  { intros ->. destruct Hstart as [Hs _]. rewrite Hn in Hs.
    injection Hs as ->. simpl in Hlt. lia. }
  split; [split|split].
  - done.
  - simpl. by rewrite !lookup_insert_ne.
  - intros d' u Hin. simpl in Hin. apply elem_of_heappush in Hin as [[= -> ->]|Hin].
    + eauto.
    + destruct (Hq d' u Hin) as [vs' Hvs']. exists vs'.
      by apply dpath_mono with (distances st).
  - intros u y Hu. simpl in Hu. destruct (decide (n = u)) as [->|Hne].
    + rewrite lookup_insert_eq in Hu. injection Hu as <-. eauto.
    + rewrite lookup_insert_ne in Hu by done.
      destruct (Hd u y Hu) as [vs' Hvs']. exists vs'.
      by apply dpath_mono with (distances st).
  - intros u y v Hu Hev. simpl in Hu. destruct (decide (n = u)) as [->|Hne].
    + rewrite lookup_insert_eq in Hu. injection Hu as <-.
      left. simpl. apply elem_of_heappush. by left.
    + rewrite lookup_insert_ne in Hu by done.
      destruct (Hr u y v Hu Hev) as [Hin|[Hle|(-> & -> & Hin)]].
      * left. simpl. apply elem_of_heappush. by right.
      * right; left. by apply Hmono.
      * apply elem_of_cons in Hin as [->|Hin]; [|by right; right].
        right; left. exists d. simpl. rewrite lookup_insert_eq. done.
  - unfold measure. simpl. rewrite length_heappush.
    rewrite potential_insert
      by (apply elem_of_keys, elem_of_dom; rewrite <- Hdom;
          apply elem_of_dom; eauto).
    rewrite Hn. simpl.
    destruct known as [y|]; simpl in *; [lia|].
    destruct (dpath_bound _ _ _ _ Hdom1 Hnew). lia.
  - by apply dpath_mono with (distances st).
Qed.

(** *** The [for] loop *)

Lemma relax_inv cd cv todo st :
  inv g s cd cv todo st →
  (∀ v, v ∈ todo → edge g cv v) →
  (∃ vs, dpath g s (distances st) vs cv cd) →
  (∃ st', relax cd cv todo st g = (Ok st', g)
          ∧ inv g s cd cv [] st'
          ∧ measure g st' ≤ measure g st)
  ∨ (relax cd cv todo st g = (Raise KeyError, g) ∧ ¬ closed g).
Proof.
  revert st. induction todo as [|n rest IH]; intros st Hinv Hedges [vs Hp].
  - left. exists st. split; [done|]. split; [done|lia].
  - assert (He : edge g cv n) by apply Hedges, list_elem_of_here.
    assert (Hrest : ∀ v, v ∈ rest → edge g cv v)
      by (intros v Hv; by apply Hedges, list_elem_of_further).
    cbn [relax]. unfold mbind, M_bind, reads, dict_getitem.
    destruct (distances st !! n) as [known|] eqn:Hn.
    + unfold mret, M_ret.
      destruct (dist_lt (cd + edge_weight g cv n) known) eqn:Hlt.
      * destruct (inv_update cd cv n rest st known vs Hinv He Hp Hn Hlt)
          as (Hinv1 & Hm1 & Hp1).
        destruct (IH _ Hinv1 Hrest (ex_intro _ vs Hp1))
          as [(st' & Hrun & Hinv' & Hm')|Hraise]; [left|by right].
        exists st'. split; [done|]. split; [done|lia].
      * pose proof (inv_skip cd cv n rest st known Hinv Hn Hlt) as Hinv1.
        destruct (IH _ Hinv1 Hrest (ex_intro _ vs Hp))
          as [(st' & Hrun & Hinv' & Hm')|Hraise]; [left|by right].
        exists st'. done.
    + right. split; [done|]. intros Hclosed.
      pose proof (edge_target_key cv n Hclosed He) as Hkey.
      apply elem_of_dom in Hkey. rewrite <- (inv_dom _ _ _ _ _ _ Hinv) in Hkey.
      apply elem_of_dom in Hkey as [? ?]. congruence.
Qed.

(** *** The [while] loop *)

Lemma inv_between cd cv cd' cv' st :
  inv g s cd cv [] st → inv g s cd' cv' [] st.
Proof.
  intros [Hdom Hstart Hq Hd Hr]. split; try done. intros u y v Hu He.
  destruct (Hr u y v Hu He) as [?|[?|(_ & _ & Hin)]]; [by left|by right; left|].
  by apply elem_of_nil in Hin.
Qed.

Lemma measure_nonneg cd cv todo st :
  inv g s cd cv todo st → 0 ≤ measure g st.
Proof.
  intros Hinv. unfold measure.
  assert (0 ≤ potential g (distances st)); [|lia].
  apply potential_nonneg. intros u y Hu.
  destruct (inv_dist _ _ _ _ _ _ Hinv u y Hu) as [vs Hp].
  by eapply dpath_nonneg.
Qed.

Lemma inv_pop cd cv heap' D P neighbors :
  inv g s 0 s [] (mkLocals D P ((cd, cv) :: heap')) →
  adjacency_list g !! cv = Some neighbors →
  inv g s cd cv neighbors (mkLocals D P heap').
Proof.
  intros [Hdom Hstart Hq Hd Hr] Hcv. simpl in *. split; simpl; try done.
  - intros d u Hin. apply Hq. by apply list_elem_of_further.
  - intros u y v Hu He. destruct (Hr u y v Hu He) as [Hin|[?|(_ & _ & Hin)]].
    + apply elem_of_cons in Hin as [[= -> ->]|Hin]; [|by left].
      right; right. destruct He as (l & Hl & Hv). rewrite Hcv in Hl.
      by injection Hl as ->.
    + by right; left.
    + by apply elem_of_nil in Hin.
Qed.

Lemma dijkstra_loop_inv fuel st :
  inv g s 0 s [] st →
  measure g st < Z.of_nat fuel →
  (∃ D P, dijkstra_loop fuel st g = (Ok (D, P), g)
          ∧ inv g s 0 s [] (mkLocals D P []))
  ∨ (dijkstra_loop fuel st g = (Raise KeyError, g) ∧ ¬ closed g).
Proof.
  revert st. induction fuel as [|fuel IH]; intros st Hinv Hfuel.
  { pose proof (measure_nonneg _ _ _ _ Hinv). lia. }
  destruct st as [D P Q]. cbn [dijkstra_loop priority_queue].
  destruct Q as [|[cd cv] heap']; cbn [heappop].
  { left. exists D, P. done. }
  destruct (inv_queue _ _ _ _ _ _ Hinv cd cv) as [vs Hp];
    [apply list_elem_of_here|]. simpl in Hp.
  assert (Hcv : is_Some (adjacency_list g !! cv)).
  { apply elem_of_dom. rewrite <- (inv_dom _ _ _ _ _ _ Hinv). simpl.
    destruct (dpath_end _ _ _ _ Hp) as (y & Hy & _). apply elem_of_dom. eauto. }
  destruct Hcv as [neighbors Hcv].
  unfold adjacency_getitem, mbind, M_bind, reads. rewrite Hcv.
  unfold mret, M_ret. cbn [distances predecessors].
  destruct (relax_inv cd cv neighbors (mkLocals D P heap'))
    as [(st' & Hrun & Hinv' & Hm')|[Hraise Hopen]].
  - by apply inv_pop.
  - intros v Hv. exists neighbors. done.
  - exists vs. done.
  - rewrite Hrun. apply IH.
    + by apply inv_between with cd cv.
    + unfold measure in *. simpl in *. lia.
  - right. by rewrite Hraise.
Qed.

(** *** The whole method *)

Hypothesis s_present : is_Some (adjacency_list g !! s).

Lemma inv_initial :
  inv g s 0 s []
    (mkLocals (<[s := Finite 0]> ((λ _, Infinity) <$> adjacency_list g))
              ((λ _, @None string) <$> adjacency_list g)
              [(0, s)]).
Proof.
  assert (Hs : dpath g s (<[s := Finite 0]> ((λ _, Infinity) <$> adjacency_list g))
                 [s] s 0).
  { apply dpath_start. exists 0. by rewrite lookup_insert_eq. }
  assert (Hfin : ∀ u y,
             <[s := Finite 0]> ((λ _, Infinity) <$> adjacency_list g) !! u
             = Some (Finite y) → u = s ∧ y = 0).
  { intros u y. destruct (decide (s = u)) as [->|Hne].
    - rewrite lookup_insert_eq. by intros [= <-].
    - rewrite lookup_insert_ne, lookup_fmap by done.
      by destruct (adjacency_list g !! u). }
  split; simpl.
  - rewrite dom_insert_L, dom_fmap_L.
    apply elem_of_dom in s_present. set_solver.
  - rewrite lookup_insert_eq, lookup_fmap.
    destruct s_present as [l ->]. done.
  - intros d u Hin. apply list_elem_of_singleton in Hin as [= -> ->]. eauto.
  - intros u y Hu. apply Hfin in Hu as [-> ->]. eauto.
  - intros u y v Hu _. apply Hfin in Hu as [-> ->]. left.
    apply list_elem_of_here.
Qed.

Lemma measure_initial :
  measure g
    (mkLocals (<[s := Finite 0]> ((λ _, Infinity) <$> adjacency_list g))
              ((λ _, @None string) <$> adjacency_list g)
              [(0, s)])
  < Z.of_nat (enough_fuel g).
Proof.
  unfold measure, enough_fuel. simpl.
  pose proof weight_bound_nonneg as HB.
  assert (potential g (<[s := Finite 0]> ((λ _, Infinity) <$> adjacency_list g))
          ≤ Z.of_nat (length (keys g)) * (weight_bound g + 1)); [|nia].
  apply potential_le. intros u. destruct (decide (s = u)) as [->|Hne].
  - rewrite lookup_insert_eq. simpl. lia.
  - rewrite lookup_insert_ne, lookup_fmap by done.
    destruct (adjacency_list g !! u); simpl; lia.
Qed.

Lemma dijkstra_settles :
  (∃ D P, (∀ fuel, (enough_fuel g ≤ fuel)%nat →
             dijkstra fuel s g = (Ok (D, P), g))
          ∧ inv g s 0 s [] (mkLocals D P []))
  ∨ ((∀ fuel, (enough_fuel g ≤ fuel)%nat →
        dijkstra fuel s g = (Raise KeyError, g))
     ∧ ¬ closed g).
Proof.
  destruct (dijkstra_loop_inv (enough_fuel g) _ inv_initial measure_initial)
    as [(D & P & Hrun & Hinv)|[Hraise Hopen]]; [left|right].
  - exists D, P. split; [|done]. intros fuel Hfuel.
    unfold dijkstra, mbind, M_bind, reads.
    by apply dijkstra_loop_fuel_mono with (enough_fuel g).
  - split; [|done]. intros fuel Hfuel.
    unfold dijkstra, mbind, M_bind, reads.
    by apply dijkstra_loop_fuel_mono with (enough_fuel g).
Qed.

Lemma dijkstra_terminates :
  closed g →
  ∃ D P, (∀ fuel, (enough_fuel g ≤ fuel)%nat →
            dijkstra fuel s g = (Ok (D, P), g))
         ∧ inv g s 0 s [] (mkLocals D P []).
Proof.
  intros Hclosed. by destruct dijkstra_settles as [?|[_ ?]].
Qed.

(** *** What the final dictionaries say *)

Lemma final_lower_bound D P vs v d :
  inv g s 0 s [] (mkLocals D P []) →
  path g s vs v d → dle D v d.
Proof.
  intros Hinv. induction 1 as [|vs u v d _ IH He].
  - exists 0. split; [|done]. apply (inv_start _ _ _ _ _ _ Hinv).
  - destruct IH as (y & Hy & Hle).
    destruct (inv_relaxed _ _ _ _ _ _ Hinv u y v Hy He) as [Hin|[Hv|(_ & _ & Hin)]];
      simpl in *.
    + by apply elem_of_nil in Hin.
    + apply dle_weaken with (y + edge_weight g u v); [done|lia].
    + by apply elem_of_nil in Hin.
Qed.

Lemma final_finite D P v y :
  inv g s 0 s [] (mkLocals D P []) →
  D !! v = Some (Finite y) →
  (∃ vs, path g s vs v y ∧ NoDup vs)
  ∧ (∀ vs d, path g s vs v d → y ≤ d).
Proof.
  intros Hinv Hv. split.
  - destruct (inv_dist _ _ _ _ _ _ Hinv v y Hv) as [vs Hp].
    exists vs. by apply dpath_path with D.
  - intros vs d Hp.
    destruct (final_lower_bound D P vs v d Hinv Hp) as (y' & Hy' & Hle).
    rewrite Hv in Hy'. injection Hy' as ->. done.
Qed.

Lemma final_infinite D P v :
  inv g s 0 s [] (mkLocals D P []) →
  D !! v = Some Infinity →
  ∀ vs d, ¬ path g s vs v d.
Proof.
  intros Hinv Hv vs d Hp.
  destruct (final_lower_bound D P vs v d Hinv Hp) as (y & Hy & _).
  congruence.
Qed.
End dijkstra_correct.

(** ** Results on [dijkstra] and [shortest_path] *)

(** C1. On a graph whose neighbours are all vertices and whose recorded
    weights are not negative, [dijkstra] from a present start vertex
    returns, given enough iterations, a dictionary with one entry per
    vertex: a finite entry is the weight of some path from the start (one
    that repeats no vertex) and no path from the start weighs less, an
    infinite entry means that no path from the start reaches the vertex; a
    pair without a weight entry counts 1.  On the undirected graph with
    edges A-B (1), B-C (2), A-C (5), [shortest_path(A, C)] returns cost 3
    and path [A, B, C]. *)
Theorem dijkstra_returns_minimum_path_weights (g : Graph) (start : string) :
  (closed g → nonneg g → is_Some (adjacency_list g !! start) →
   ∃ D P,
     (∀ fuel, (enough_fuel g ≤ fuel)%nat →
        result (dijkstra fuel start) g = Ok (D, P))
     ∧ (∀ v, is_Some (D !! v) ↔ is_Some (adjacency_list g !! v))
     ∧ (∀ v y, D !! v = Some (Finite y) →
          (∃ vs, path g start vs v y ∧ NoDup vs)
          ∧ (∀ vs d, path g start vs v d → y ≤ d))
     ∧ (∀ v, D !! v = Some Infinity → ∀ vs d, ¬ path g start vs v d))
  ∧ result (shortest_path 10 "A" "C") weighted_triangle
    = Ok (Cost (Finite 3), ["A"; "B"; "C"])
  ∧ (∃ D P, result (dijkstra 10 "A") unweighted_pair = Ok (D, P)
            ∧ D !! "B" = Some (Finite 1)).
Proof.
  split; [|split].
  - intros Hclosed Hnonneg Hstart.
    destruct (dijkstra_terminates g start Hnonneg Hstart Hclosed)
      as (D & P & Hrun & Hinv).
    exists D, P. split; [|split; [|split]].
    + intros fuel Hfuel. unfold result. by rewrite Hrun.
    + intros v. rewrite <- !elem_of_dom.
      by rewrite <- (inv_dom _ _ _ _ _ _ Hinv).
    + intros v y Hv. by eapply (final_finite g start).
    + intros v Hv. by eapply (final_infinite g start).
  - vm_compute. reflexivity.
  - eexists _, _. split; vm_compute; reflexivity.
Qed.

Lemma dijkstra_returns_minimum_path_weights_witness :
  ∃ D P,
    (∀ fuel, (enough_fuel weighted_triangle ≤ fuel)%nat →
       result (dijkstra fuel "A") weighted_triangle = Ok (D, P))
    ∧ (∀ v, is_Some (D !! v) ↔ is_Some (adjacency_list weighted_triangle !! v))
    ∧ (∀ v y, D !! v = Some (Finite y) →
         (∃ vs, path weighted_triangle "A" vs v y ∧ NoDup vs)
         ∧ (∀ vs d, path weighted_triangle "A" vs v d → y ≤ d))
    ∧ (∀ v, D !! v = Some Infinity →
         ∀ vs d, ¬ path weighted_triangle "A" vs v d).
Proof.
  apply (proj1 (dijkstra_returns_minimum_path_weights weighted_triangle "A")).
  - apply (bool_decide_unpack _). vm_compute. exact I.
  - apply (bool_decide_unpack _). vm_compute. exact I.
  - vm_compute. eexists. reflexivity.
Defined.

Lemma shortest_path_run fuel start end_vertex g D P :
  dijkstra fuel start g = (Ok (D, P), g) →
  shortest_path fuel start end_vertex g
  = match D !! end_vertex with
    | None => (Raise KeyError, g)
    | Some at_end =>
        if is_infinity at_end then (Ok (Message "No path exists", []), g)
        else match walk_back fuel P [] end_vertex g with
             | (Ok (path, current_vertex), g') =>
                 (Ok (Cost at_end,
                      match path with
                      | [] => path
                      | _ :: _ => current_vertex :: path
                      end), g')
             | (Raise e, g') => (Raise e, g')
             | (OutOfFuel, g') => (OutOfFuel, g')
             end
    end.
Proof.
  intros Hrun. unfold shortest_path, mbind, M_bind. rewrite Hrun.
  unfold dict_getitem. destruct (D !! end_vertex) as [at_end|]; [|done].
  unfold mret at 1, M_ret at 1. destruct (is_infinity at_end); [done|].
  by destruct (walk_back fuel P [] end_vertex g) as [[[path current]| |] g'].
Qed.

Lemma enough_fuel_pos g : (2 ≤ enough_fuel g)%nat.
Proof.
  unfold enough_fuel. unfold weight_bound.
  assert (1 ≤ max_weight g).
  { unfold max_weight. induction ((map_to_list (edge_weights g)).*2); simpl; lia. }
  nia.
Qed.

(** C2 (as amended). On a graph whose neighbours are all vertices and
    whose recorded weights are not negative, [shortest_path(start, start)]
    for a present vertex returns cost 0 and the empty path: the backward
    walk collects nothing, and [start] is prepended only to a non-empty
    path. *)
Theorem shortest_path_to_start_is_empty (g : Graph) (start : string) (fuel : nat) :
  closed g → nonneg g → is_Some (adjacency_list g !! start) →
  (enough_fuel g ≤ fuel)%nat →
  result (shortest_path fuel start start) g = Ok (Cost (Finite 0), []).
Proof.
  intros Hclosed Hnonneg Hstart Hfuel.
  destruct (dijkstra_terminates g start Hnonneg Hstart Hclosed)
    as (D & P & Hrun & Hinv).
  destruct (inv_start _ _ _ _ _ _ Hinv) as [HD HP]. simpl in HD, HP.
  unfold result. rewrite (shortest_path_run _ _ _ _ D P) by auto.
  rewrite HD. cbn [is_infinity].
  pose proof (enough_fuel_pos g).
  destruct fuel as [|fuel]; [lia|].
  cbn [walk_back]. unfold mbind, M_bind, dict_getitem. by rewrite HP.
Qed.

Lemma shortest_path_to_start_is_empty_witness :
  result (shortest_path (enough_fuel weighted_triangle) "A" "A") weighted_triangle
  = Ok (Cost (Finite 0), []).
Proof.
  apply (shortest_path_to_start_is_empty weighted_triangle "A").
  - apply (bool_decide_unpack _). vm_compute. exact I.
  - apply (bool_decide_unpack _). vm_compute. exact I.
  - vm_compute. eexists. reflexivity.
  - lia.
Defined.

(** On the weighted triangle, [shortest_path(A, A)] returns cost 0 with
    the empty path, not with the path [A]. *)
Lemma shortest_path_to_start_is_not_singleton :
  result (shortest_path 10 "A" "A") weighted_triangle = Ok (Cost (Finite 0), [])
  ∧ result (shortest_path 10 "A" "A") weighted_triangle
    ≠ Ok (Cost (Finite 0), ["A"]).
Proof. split; [vm_compute; reflexivity|vm_compute; discriminate]. Qed.

(** C3. When [dijkstra(start)] leaves the entry of [end] infinite,
    [shortest_path(start, end)] returns the message "No path exists" in
    place of a cost, with the empty path; and on a graph whose neighbours
    are all vertices and whose recorded weights are not negative this is
    what happens whenever both vertices are present and no path leads
    from [start] to [end]. *)
Theorem shortest_path_unreachable_is_no_path
    (g : Graph) (start end_vertex : string) :
  (∀ fuel D P,
     result (dijkstra fuel start) g = Ok (D, P) →
     D !! end_vertex = Some Infinity →
     result (shortest_path fuel start end_vertex) g
     = Ok (Message "No path exists", []))
  ∧ (closed g → nonneg g →
     is_Some (adjacency_list g !! start) →
     is_Some (adjacency_list g !! end_vertex) →
     (∀ vs d, ¬ path g start vs end_vertex d) →
     ∀ fuel, (enough_fuel g ≤ fuel)%nat →
       result (shortest_path fuel start end_vertex) g
       = Ok (Message "No path exists", [])).
Proof.
  split.
  - intros fuel D P Hrun Hend. unfold result in *.
    pose proof (read_only_dijkstra fuel start g) as Hg. unfold exec in Hg.
    destruct (dijkstra fuel start g) as [r g'] eqn:E. simpl in *. subst.
    rewrite (shortest_path_run _ _ _ _ D P E), Hend. done.
  - intros Hclosed Hnonneg Hstart Hend Hno fuel Hfuel.
    destruct (dijkstra_terminates g start Hnonneg Hstart Hclosed)
      as (D & P & Hrun & Hinv).
    unfold result. rewrite (shortest_path_run _ _ _ _ D P) by auto.
    assert (HD : is_Some (D !! end_vertex)).
    { apply elem_of_dom. rewrite (inv_dom _ _ _ _ _ _ Hinv : dom D = _).
      by apply elem_of_dom. }
    destruct HD as [[y|] HD]; rewrite HD; [|done].
    edestruct (final_finite g start) as [(vs & Hp & _) _]; [done..|].
    by destruct (Hno vs y).
Qed.

Lemma shortest_path_unreachable_is_no_path_witness :
  result (shortest_path 10 "A" "D") triangle_and_vertex
  = Ok (Message "No path exists", [])
  ∧ result (shortest_path (enough_fuel triangle_and_vertex) "A" "D")
      triangle_and_vertex
    = Ok (Message "No path exists", []).
Proof.
  split.
  - assert (Hrun : result (dijkstra 10 "A") triangle_and_vertex
                   = Ok (<["D" := Infinity]>
                           (<["C" := Finite 3]>
                              (<["B" := Finite 1]> {["A" := Finite 0]})),
                         <["D" := None]>
                           (<["C" := Some "B"]>
                              (<["B" := Some "A"]> {["A" := None]}))))
      by (vm_compute; reflexivity).
    apply (proj1 (shortest_path_unreachable_is_no_path triangle_and_vertex "A" "D")
             _ _ _ Hrun).
    vm_compute. reflexivity.
  - apply (proj2 (shortest_path_unreachable_is_no_path triangle_and_vertex "A" "D")).
    + apply (bool_decide_unpack _). vm_compute. exact I.
    + apply (bool_decide_unpack _). vm_compute. exact I.
    + vm_compute. eexists. reflexivity.
    + vm_compute. eexists. reflexivity.
    + assert (Hnone : map_Forall (λ _ l, "D" ∉ l)
                        (adjacency_list triangle_and_vertex))
        by (apply (bool_decide_unpack _); vm_compute; exact I).
      intros vs d Hp. inversion Hp as [|vs' u v d' _ (l & Hl & Hin)]; subst.
      apply (Hnone u l Hl Hin).
    + lia.
Defined.

(** Whatever the weights, the loops raise nothing but [KeyError] and
    keep the keys of [distances]. *)
Lemma relax_outcome cd cv neighbors st g :
  match relax cd cv neighbors st g with
  | (Ok st', _) => dom (distances st') = dom (distances st)
  | (Raise e, _) => e = KeyError
  | (OutOfFuel, _) => False
  end.
Proof.
  revert st. induction neighbors as [|n rest IH]; intros st; [done|].
  cbn [relax]. unfold mbind, M_bind, reads, dict_getitem.
  destruct (distances st !! n) as [known|] eqn:Hn; [|done].
  unfold mret, M_ret.
  destruct (dist_lt (cd + edge_weight g cv n) known); [|apply IH].
  match goal with |- context [relax cd cv rest ?st1 g] => specialize (IH st1) end.
  destruct (relax cd cv rest _ g) as [[st'| |] g']; try done.
  rewrite IH. simpl. rewrite dom_insert_L.
  apply elem_of_dom_2 in Hn. set_solver.
Qed.

Lemma dijkstra_loop_outcome fuel st g :
  match dijkstra_loop fuel st g with
  | (Ok (D, _), _) => dom D = dom (distances st)
  | (Raise e, _) => e = KeyError
  | (OutOfFuel, _) => True
  end.
Proof.
  revert st. induction fuel as [|fuel IH]; intros st; [done|].
  cbn [dijkstra_loop].
  destruct (heappop (priority_queue st)) as [[[cd cv] heap']|]; [|done].
  unfold adjacency_getitem, mbind, M_bind, reads.
  destruct (adjacency_list g !! cv) as [neighbors|]; [|done].
  unfold mret, M_ret.
  pose proof (relax_outcome cd cv neighbors
                (mkLocals (distances st) (predecessors st) heap') g) as Hr.
  pose proof (read_only_relax cd cv neighbors
                (mkLocals (distances st) (predecessors st) heap') g) as Hg.
  unfold exec in Hg.
  destruct (relax cd cv neighbors _ g) as [[st'| |] g']; try done.
  simpl in Hg. subst g'. specialize (IH st').
  destruct (dijkstra_loop fuel st' g) as [[[D P]| |] g'']; try done.
  by rewrite IH, Hr.
Qed.

Lemma shortest_path_unknown_end fuel start end_vertex g :
  adjacency_list g !! end_vertex = None →
  result (shortest_path fuel start end_vertex) g = Raise KeyError
  ∨ result (shortest_path fuel start end_vertex) g = OutOfFuel.
Proof.
  intros Hend. unfold result, shortest_path, mbind, M_bind.
  pose proof (dijkstra_loop_outcome fuel
    (mkLocals (<[start := Finite 0]> ((λ _, Infinity) <$> adjacency_list g))
              ((λ _, @None string) <$> adjacency_list g) [(0, start)]) g) as Hout.
  unfold dijkstra, mbind, M_bind, reads.
  destruct (dijkstra_loop fuel _ g) as [[[D P]|e|] g'] eqn:Hloop; simpl in *.
  - unfold dict_getitem.
    destruct (D !! end_vertex) as [at_end|] eqn:HD; [|by left].
    apply elem_of_dom_2 in HD. rewrite Hout, dom_insert_L, dom_fmap_L in HD.
    apply elem_of_union in HD as [HD|HD].
    + apply elem_of_singleton in HD as ->.
      destruct fuel as [|fuel]; [done|]. exfalso. revert Hloop.
      cbn [dijkstra_loop priority_queue heappop].
      unfold adjacency_getitem, mbind, M_bind, reads. by rewrite Hend.
    + by apply not_elem_of_dom in Hend.
  - left. by subst e.
  - by right.
Qed.

(** C9. [dijkstra] with a start vertex that is not a key of
    [adjacency_list] raises [KeyError] (at the first lookup of the
    neighbours of the start vertex) instead of returning, and so does
    [shortest_path].  [shortest_path] with an end vertex that is not a key
    never returns a result on any graph: within any budget it has raised
    [KeyError] or is still running; and on every graph whose recorded
    weights are not negative it does raise [KeyError]. *)
Theorem unknown_vertex_raises_KeyError
    (g : Graph) (start end_vertex : string) (fuel : nat) :
  (adjacency_list g !! start = None →
   result (dijkstra (S fuel) start) g = Raise KeyError
   ∧ result (shortest_path (S fuel) start end_vertex) g = Raise KeyError)
  ∧ (adjacency_list g !! end_vertex = None →
     result (shortest_path fuel start end_vertex) g = Raise KeyError
     ∨ result (shortest_path fuel start end_vertex) g = OutOfFuel)
  ∧ (nonneg g →
     is_Some (adjacency_list g !! start) →
     adjacency_list g !! end_vertex = None →
     (enough_fuel g ≤ fuel)%nat →
     result (shortest_path fuel start end_vertex) g = Raise KeyError).
Proof.
  split; [|split].
  - intros Hstart.
    assert (Hd : dijkstra (S fuel) start g = (Raise KeyError, g)).
    { unfold dijkstra, mbind, M_bind, reads. cbn [dijkstra_loop priority_queue heappop].
      unfold mbind, M_bind, adjacency_getitem, mbind, M_bind, reads.
      by rewrite Hstart. }
    unfold result, shortest_path, mbind, M_bind. by rewrite Hd.
  - apply shortest_path_unknown_end.
  - intros Hnonneg Hstart Hend Hfuel.
    destruct (dijkstra_settles g start Hnonneg Hstart)
      as [(D & P & Hrun & Hinv)|[Hraise _]].
    + unfold result. rewrite (shortest_path_run _ _ _ _ D P) by auto.
      assert (HD : D !! end_vertex = None).
      { apply not_elem_of_dom. rewrite (inv_dom _ _ _ _ _ _ Hinv : dom D = _).
        by apply not_elem_of_dom. }
      by rewrite HD.
    + unfold result, shortest_path, mbind, M_bind. by rewrite Hraise.
Qed.

Lemma unknown_vertex_raises_KeyError_witness :
  (result (dijkstra 1 "Z") weighted_triangle = Raise KeyError
   ∧ result (shortest_path 1 "Z" "A") weighted_triangle = Raise KeyError)
  ∧ (result (shortest_path 2 "A" "Z") weighted_triangle = Raise KeyError
     ∨ result (shortest_path 2 "A" "Z") weighted_triangle = OutOfFuel)
  ∧ result (shortest_path (enough_fuel weighted_triangle) "A" "Z")
      weighted_triangle = Raise KeyError.
Proof.
  split; [|split].
  - apply (proj1 (unknown_vertex_raises_KeyError weighted_triangle "Z" "A" 0)).
    vm_compute. reflexivity.
  - apply (proj1 (proj2 (unknown_vertex_raises_KeyError weighted_triangle "A" "Z" 2))).
    vm_compute. reflexivity.
  - apply (proj2 (proj2 (unknown_vertex_raises_KeyError weighted_triangle "A" "Z"
                           (enough_fuel weighted_triangle)))).
    + apply (bool_decide_unpack _). vm_compute. exact I.
    + vm_compute. eexists. reflexivity.
    + vm_compute. reflexivity.
    + lia.
Defined.

(** * Further properties *)

Local Open Scope list_scope.

(** ** The predecessors computed by [dijkstra] *)

Section predecessors.
Variable g : Graph.
Variable s : string.
Hypothesis g_nonneg : nonneg g.

Lemma pinv_update cd cv n rest st known vs stamp bound :
  inv g s cd cv (n :: rest) st →
  edge g cv n →
  dpath g s (distances st) vs cv cd →
  distances st !! n = Some known →
  dist_lt (cd + edge_weight g cv n) known = true →
  pinv g s stamp bound st →
  pinv g s (λ v, if decide (v = n) then S bound else stamp v) (S bound)
    (mkLocals (<[n := Finite (cd + edge_weight g cv n)]> (distances st))
              (<[n := Some cv]> (predecessors st))
              (heappush (priority_queue st) (cd + edge_weight g cv n, n))).
Proof.
  intros Hinv He Hp Hn Hlt [Hdom Hbound Hsome Hnone].
  pose proof (edge_weight_nonneg g g_nonneg cv n) as Hw.
  destruct (dpath_end g s _ _ _ _ Hp) as (xc & Hxc & Hxc_le).
  assert (Hcvn : cv ≠ n).
  { intros ->. rewrite Hn in Hxc. injection Hxc as ->. simpl in Hlt. lia. }
  split; simpl.
  - rewrite dom_insert_L, Hdom.
    assert (n ∈ dom (adjacency_list g)).
    { rewrite <- (inv_dom _ _ _ _ _ _ Hinv). apply elem_of_dom. eauto. }
    set_solver.
  - intros v. case_decide; [lia|]. specialize (Hbound v). lia.
  - intros v u Hv. destruct (decide (n = v)) as [->|Hne].
    + rewrite lookup_insert_eq in Hv. injection Hv as <-.
      split; [done|]. exists xc, (cd + edge_weight g cv v).
      rewrite lookup_insert_ne, lookup_insert_eq by done.
      split; [done|]. split; [done|]. split; [lia|]. right.
      rewrite decide_False, decide_True by done. specialize (Hbound cv). lia.
    + rewrite lookup_insert_ne in Hv by done.
      destruct (Hsome v u Hv) as (Hedge & x & y & Hx & Hy & Hle & Hord).
      split; [done|]. rewrite (lookup_insert_ne _ n v) by done.
      destruct (decide (n = u)) as [->|Hnu].
      * exists (cd + edge_weight g cv u), y. rewrite lookup_insert_eq.
        rewrite Hn in Hx. injection Hx as ->. simpl in Hlt.
        pose proof (edge_weight_nonneg g g_nonneg u v).
        split; [done|]. split; [done|]. split; [lia|]. left. lia.
      * exists x, y. rewrite lookup_insert_ne by done.
        split; [done|]. split; [done|]. split; [done|].
        rewrite !decide_False by done. done.
  - intros v Hv. destruct (decide (n = v)) as [->|Hne].
    + by rewrite lookup_insert_eq in Hv.
    + rewrite lookup_insert_ne in Hv by done.
      rewrite lookup_insert_ne by done. by apply Hnone.
Qed.

Lemma relax_pinv cd cv todo st st' g' :
  inv g s cd cv todo st →
  (∀ v, v ∈ todo → edge g cv v) →
  (∃ vs, dpath g s (distances st) vs cv cd) →
  (∃ stamp bound, pinv g s stamp bound st) →
  relax cd cv todo st g = (Ok st', g') →
  ∃ stamp bound, pinv g s stamp bound st'.
Proof.
  revert st. induction todo as [|n rest IH];
    intros st Hinv Hedges [vs Hp] (stamp & bound & Hpinv) Hrun.
  - injection Hrun as <- _. eauto.
  - assert (He : edge g cv n) by apply Hedges, list_elem_of_here.
    assert (Hrest : ∀ v, v ∈ rest → edge g cv v)
      by (intros v Hv; by apply Hedges, list_elem_of_further).
    revert Hrun. cbn [relax]. unfold mbind, M_bind, reads, dict_getitem.
    destruct (distances st !! n) as [known|] eqn:Hn; [|done].
    unfold mret, M_ret.
    destruct (dist_lt (cd + edge_weight g cv n) known) eqn:Hlt.
    + destruct (inv_update g s g_nonneg cd cv n rest st known vs Hinv He Hp Hn Hlt)
        as (Hinv1 & _ & Hp1).
      apply IH; [done|done|by exists vs|].
      eexists _, _. by eapply pinv_update.
    + apply IH; [|done|by exists vs|by exists stamp, bound].
      by apply (inv_skip g s cd cv n rest st known).
Qed.

Lemma dijkstra_loop_pinv fuel st D P g' :
  inv g s 0 s [] st →
  (∃ stamp bound, pinv g s stamp bound st) →
  dijkstra_loop fuel st g = (Ok (D, P), g') →
  ∃ stamp bound, pinv g s stamp bound (mkLocals D P []).
Proof.
  revert st. induction fuel as [|fuel IH];
    intros st Hinv (stamp & bound & Hpinv) Hrun; [done|].
  destruct st as [D0 P0 Q]. revert Hrun. cbn [dijkstra_loop priority_queue].
  destruct Q as [|[cd cv] heap']; cbn [heappop].
  { intros [= <- <- _]. exists stamp, bound. by destruct Hpinv. }
  destruct (inv_queue _ _ _ _ _ _ Hinv cd cv) as [vs Hp];
    [apply list_elem_of_here|]. simpl in Hp.
  unfold adjacency_getitem, mbind, M_bind, reads.
  destruct (adjacency_list g !! cv) as [neighbors|] eqn:Hcv; [|done].
  unfold mret, M_ret. cbn [distances predecessors].
  assert (Hinv0 : inv g s cd cv neighbors (mkLocals D0 P0 heap'))
    by (by apply inv_pop).
  assert (Hedges : ∀ v, v ∈ neighbors → edge g cv v)
    by (intros v Hv; by exists neighbors).
  destruct (relax_inv g s g_nonneg cd cv neighbors (mkLocals D0 P0 heap')
              Hinv0 Hedges (ex_intro _ vs Hp))
    as [(st1 & Hrelax & Hinv1 & _)|[Hraise _]]; [|by rewrite Hraise].
  rewrite Hrelax. apply IH.
  - by apply inv_between with cd cv.
  - apply (relax_pinv cd cv neighbors (mkLocals D0 P0 heap') st1 g);
      [done|done|by exists vs| |done].
    exists stamp, bound. by destruct Hpinv.
Qed.

Hypothesis s_present : is_Some (adjacency_list g !! s).

Lemma pinv_initial :
  pinv g s (λ _, 0%nat) 0
    (mkLocals (<[s := Finite 0]> ((λ _, Infinity) <$> adjacency_list g))
              ((λ _, @None string) <$> adjacency_list g)
              [(0, s)]).
Proof.
  split; simpl.
  - apply dom_fmap_L.
  - done.
  - intros v u. rewrite lookup_fmap. by destruct (adjacency_list g !! v).
  - intros v. rewrite lookup_fmap.
    destruct (adjacency_list g !! v) eqn:Hv; [|done]. intros _.
    destruct (decide (s = v)) as [->|Hne]; [by left|right].
    by rewrite lookup_insert_ne, lookup_fmap, Hv.
Qed.

(** The final dictionaries: the invariants of both hold. *)
Lemma dijkstra_final :
  closed g →
  ∃ D P stamp bound,
    (∀ fuel, (enough_fuel g ≤ fuel)%nat → dijkstra fuel s g = (Ok (D, P), g))
    ∧ inv g s 0 s [] (mkLocals D P [])
    ∧ pinv g s stamp bound (mkLocals D P []).
Proof.
  intros Hclosed.
  destruct (dijkstra_terminates g s g_nonneg s_present Hclosed)
    as (D & P & Hrun & Hinv).
  pose proof (Hrun (enough_fuel g) (le_n _)) as Hloop.
  unfold dijkstra, mbind, M_bind, reads in Hloop.
  apply dijkstra_loop_pinv in Hloop as (stamp & bound & Hpinv).
  - by exists D, P, stamp, bound.
  - by apply inv_initial.
  - eexists _, _. apply pinv_initial.
Qed.

(** In the final dictionaries a predecessor is exactly one edge weight
    closer to the start. *)
Lemma final_predecessor D P stamp bound v u :
  inv g s 0 s [] (mkLocals D P []) →
  pinv g s stamp bound (mkLocals D P []) →
  P !! v = Some (Some u) →
  edge g u v
  ∧ ∃ x, D !! u = Some (Finite x)
         ∧ D !! v = Some (Finite (x + edge_weight g u v)).
Proof.
  intros Hinv Hpinv Hv.
  destruct (pinv_some _ _ _ _ _ Hpinv v u Hv)
    as (He & x & y & Hx & Hy & Hle & _). simpl in *.
  split; [done|]. exists x. split; [done|].
  destruct (inv_relaxed _ _ _ _ _ _ Hinv u x v Hx He)
    as [Hin|[(y' & Hy' & Hle')|(_ & _ & Hin)]]; simpl in *.
  - by apply elem_of_nil in Hin.
  - rewrite Hy in Hy'. injection Hy' as <-. rewrite Hy. do 2 f_equal. lia.
  - by apply elem_of_nil in Hin.
Qed.
End predecessors.

(** ** The path rebuilt by [shortest_path] *)

Lemma above_irrefl D stamp v : ¬ above D stamp v v.
Proof. intros (x & y & Hx & Hy & Hord). rewrite Hx in Hy. injection Hy as <-. lia. Qed.

Lemma above_trans D stamp u v w :
  above D stamp u v → above D stamp v w → above D stamp u w.
Proof.
  intros (x & y & Hx & Hy & Hxy) (y' & z & Hy' & Hz & Hyz).
  rewrite Hy in Hy'. injection Hy' as <-. exists x, z. split; [done|].
  split; [done|]. lia.
Qed.

Lemma back_start P u l v : back P u l v → l = [] → v = u.
Proof. destruct 1; [done|]. by destruct l. Qed.

Section walk_back_correct.
Variable g : Graph.
Variable s : string.
Hypothesis g_nonneg : nonneg g.
Variable D : gmap string dist.
Variable P : gmap string (option string).
Variable stamp : string → nat.
Variable bound : nat.
Hypothesis final_inv : inv g s 0 s [] (mkLocals D P []).
Hypothesis final_pinv : pinv g s stamp bound (mkLocals D P []).

Lemma finite_is_key v y : D !! v = Some (Finite y) → v ∈ keys g.
Proof.
  intros Hv. apply elem_of_keys, elem_of_dom.
  rewrite <- (inv_dom _ _ _ _ _ _ final_inv). apply elem_of_dom. simpl. eauto.
Qed.

Lemma predecessor_above v u : P !! v = Some (Some u) → above D stamp u v.
Proof.
  intros Hv.
  destruct (pinv_some _ _ _ _ _ final_pinv v u Hv)
    as (_ & x & y & Hx & Hy & Hle & Hord). simpl in *.
  pose proof (edge_weight_nonneg g g_nonneg u v).
  exists x, y. split; [done|]. split; [done|]. lia.
Qed.

Lemma walk_back_chain fuel acc v y h :
  D !! v = Some (Finite y) →
  NoDup acc → s ∉ acc →
  (∀ a, a ∈ acc → above D stamp v a) →
  (length (keys g) < fuel + length acc)%nat →
  ∃ l, walk_back fuel P acc v h = (Ok (l ++ acc, s), h)
       ∧ back P s l v
       ∧ NoDup (s :: l ++ acc).
Proof.
  revert acc v y. induction fuel as [|fuel IH];
    intros acc v y Hv Hnd Hs Habove Hfuel.
  { exfalso. assert (length acc ≤ length (keys g))%nat; [|lia].
    apply submseteq_length, NoDup_submseteq; [done|]. intros a Ha.
    destruct (Habove a Ha) as (_ & z & _ & Hz & _). by eapply finite_is_key. }
  assert (Hvacc : v ∉ acc).
  { intros Hin. by apply (above_irrefl D stamp v), Habove. }
  assert (HP : is_Some (P !! v)).
  { apply elem_of_dom.
    rewrite (pinv_dom _ _ _ _ _ final_pinv : dom P = _).
    rewrite <- (inv_dom _ _ _ _ _ _ final_inv). apply elem_of_dom. simpl. eauto. }
  destruct HP as [o HP]. cbn [walk_back]. unfold mbind, M_bind, dict_getitem.
  rewrite HP. unfold mret at 1, M_ret at 1. destruct o as [u|].
  - pose proof (predecessor_above v u HP) as Huv.
    assert (Hvs : v ≠ s).
    { intros ->. destruct (inv_start _ _ _ _ _ _ final_inv) as [_ HPs].
      simpl in HPs. congruence. }
    destruct Huv as (x & y' & Hx & Hy' & Hord) eqn:Huv'. clear Huv'.
    destruct (IH (v :: acc) u x) as (l & Hrun & Hback & Hnodup).
    + done.
    + by apply NoDup_cons.
    + intros Hin. apply elem_of_cons in Hin as [->|Hin]; done.
    + intros a Ha. apply elem_of_cons in Ha as [->|Ha].
      * by exists x, y'.
      * apply above_trans with v; [by exists x, y'|by apply Habove].
    + simpl. lia.
    + exists (l ++ [v]). rewrite <- app_assoc. simpl. split; [done|].
      split; [by apply back_step with u|done].
  - destruct (pinv_none _ _ _ _ _ final_pinv v HP) as [->|Hinf];
      simpl in *; [|congruence].
    exists []. split; [done|]. split; [apply back_here|]. by apply NoDup_cons.
Qed.

Lemma back_path l v :
  is_Some (adjacency_list g !! s) →
  back P s l v →
  ∃ y, D !! v = Some (Finite y) ∧ path g s (s :: l) v y.
Proof.
  intros Hs. induction 1 as [|l x v _ (yx & Hx & Hpath) Hv].
  - exists 0. split; [apply (inv_start _ _ _ _ _ _ final_inv)|by apply path_start].
  - destruct (final_predecessor g s D P stamp bound v x
                final_inv final_pinv Hv) as (He & x' & Hx' & Hy).
    rewrite Hx in Hx'. injection Hx' as <-.
    exists (yx + edge_weight g x v). split; [done|].
    change (s :: l ++ [v]) with ((s :: l) ++ [v]). by apply path_step.
Qed.
End walk_back_correct.

Lemma enough_fuel_keys g : nonneg g → (length (keys g) < enough_fuel g)%nat.
Proof.
  intros Hnonneg. unfold enough_fuel.
  pose proof (weight_bound_nonneg g). nia.
Qed.

Lemma path_ends g s vs v d :
  path g s vs v d → head vs = Some s ∧ last vs = Some v.
Proof.
  induction 1 as [|vs u v d _ [IHh IHl] _]; [done|].
  split; [|apply last_snoc]. by destruct vs.
Qed.

(** X1. On a graph whose neighbours are all vertices and whose recorded
    weights are not negative, [shortest_path(start, end)] for an end vertex
    other than the start that some path reaches returns, given enough
    iterations, a numeric cost together with a list of vertices that is a
    path of the graph, begins with [start], ends with [end], repeats no
    vertex, weighs exactly the returned cost, and weighs no more than any
    other path from [start] to [end]. *)
Theorem shortest_path_returns_a_lightest_path
    (g : Graph) (start end_vertex : string) :
  closed g → nonneg g → is_Some (adjacency_list g !! start) →
  start ≠ end_vertex →
  (∃ vs d, path g start vs end_vertex d) →
  ∃ d vs,
    (∀ fuel, (enough_fuel g ≤ fuel)%nat →
       result (shortest_path fuel start end_vertex) g = Ok (Cost (Finite d), vs))
    ∧ path g start vs end_vertex d
    ∧ head vs = Some start ∧ last vs = Some end_vertex
    ∧ NoDup vs
    ∧ (∀ vs' d', path g start vs' end_vertex d' → d ≤ d').
Proof.
  intros Hclosed Hnonneg Hstart Hne (vs0 & d0 & Hreach).
  destruct (dijkstra_final g start Hnonneg Hstart Hclosed)
    as (D & P & stamp & bound & Hrun & Hinv & Hpinv).
  destruct (final_lower_bound g start D P vs0 end_vertex d0 Hinv Hreach)
    as (y & Hy & _).
  pose proof (enough_fuel_keys g Hnonneg) as Hkeys.
  destruct (walk_back_chain g start Hnonneg D P stamp bound Hinv Hpinv
              (enough_fuel g) [] end_vertex y g Hy)
    as (l & Hwalk & Hback & Hnodup).
  { apply NoDup_nil_2. }
  { apply not_elem_of_nil. }
  { intros a Ha. by apply elem_of_nil in Ha. }
  { simpl. lia. }
  rewrite app_nil_r in Hwalk, Hnodup.
  destruct (back_path g start D P stamp bound Hinv Hpinv l end_vertex Hstart Hback)
    as (y' & Hy' & Hpath).
  rewrite Hy in Hy'. injection Hy' as <-.
  destruct (path_ends _ _ _ _ _ Hpath) as [Hhead Hlast].
  exists y, (start :: l).
  split; [|split; [done|split; [done|split; [done|split; [done|]]]]].
  - intros fuel Hfuel. unfold result.
    rewrite (shortest_path_run _ _ _ _ D P) by auto.
    rewrite Hy. cbn [is_infinity].
    assert (Hsame : walk_back fuel P [] end_vertex g = (Ok (l, start), g)).
    { revert Hwalk. generalize (@nil string) end_vertex.
      assert (Hmono : ∀ f f' acc v r,
                 (f ≤ f')%nat →
                 walk_back f P acc v g = (Ok r, g) →
                 walk_back f' P acc v g = (Ok r, g)).
      { induction f as [|f IHf]; intros f' acc v r Hle; [done|].
        destruct f' as [|f']; [lia|]. cbn [walk_back].
        unfold mbind, M_bind, dict_getitem.
        destruct (P !! v) as [[u|]|]; try done.
        unfold mret at 1, M_ret at 1. apply IHf. lia. }
      intros acc v. by apply Hmono. }
    rewrite Hsame. destruct l as [|a l]; [|done].
    by apply back_start in Hback.
  - intros vs' d' Hp'.
    destruct (final_lower_bound g start D P vs' end_vertex d' Hinv Hp')
      as (y' & Hy' & Hle).
    rewrite Hy in Hy'. injection Hy' as <-. done.
Qed.

Lemma shortest_path_returns_a_lightest_path_witness :
  ∃ d vs,
    (∀ fuel, (enough_fuel weighted_triangle ≤ fuel)%nat →
       result (shortest_path fuel "A" "C") weighted_triangle
       = Ok (Cost (Finite d), vs))
    ∧ path weighted_triangle "A" vs "C" d
    ∧ head vs = Some "A" ∧ last vs = Some "C"
    ∧ NoDup vs
    ∧ (∀ vs' d', path weighted_triangle "A" vs' "C" d' → d ≤ d').
Proof.
  apply (shortest_path_returns_a_lightest_path weighted_triangle "A" "C").
  - apply (bool_decide_unpack _). vm_compute. exact I.
  - apply (bool_decide_unpack _). vm_compute. exact I.
  - vm_compute. eexists. reflexivity.
  - discriminate.
  - exists (["A"] ++ ["C"]), (0 + edge_weight weighted_triangle "A" "C").
    apply path_step.
    + apply path_start. vm_compute. eexists. reflexivity.
    + exists ["B"; "C"]. split; [vm_compute; reflexivity|].
      apply list_elem_of_further, list_elem_of_here.
Defined.

(** X2. On such a graph the [predecessors] dictionary returned by
    [dijkstra] has one entry per vertex; the entry of the start vertex and
    of every vertex with infinite distance is [None], and no other; and
    every recorded predecessor [u] of a vertex [v] has [v] in its neighbour
    list and satisfies distance(v) = distance(u) + weight(u, v). *)
Theorem dijkstra_predecessors_are_tight
    (g : Graph) (start : string) :
  closed g → nonneg g → is_Some (adjacency_list g !! start) →
  ∃ D P,
    (∀ fuel, (enough_fuel g ≤ fuel)%nat →
       result (dijkstra fuel start) g = Ok (D, P))
    ∧ (∀ v, is_Some (P !! v) ↔ is_Some (adjacency_list g !! v))
    ∧ (∀ v, P !! v = Some None ↔ v = start ∨ D !! v = Some Infinity)
    ∧ (∀ v u, P !! v = Some (Some u) →
         edge g u v
         ∧ ∃ x, D !! u = Some (Finite x)
                ∧ D !! v = Some (Finite (x + edge_weight g u v))).
Proof.
  intros Hclosed Hnonneg Hstart.
  destruct (dijkstra_final g start Hnonneg Hstart Hclosed)
    as (D & P & stamp & bound & Hrun & Hinv & Hpinv).
  pose proof (pinv_dom _ _ _ _ _ Hpinv : dom P = _) as HdomP.
  pose proof (inv_dom _ _ _ _ _ _ Hinv : dom D = _) as HdomD.
  exists D, P. split; [|split; [|split]].
  - intros fuel Hfuel. unfold result. by rewrite Hrun.
  - intros v. by rewrite <- !elem_of_dom, HdomP.
  - intros v. split; [apply (pinv_none _ _ _ _ _ Hpinv)|].
    intros [->|Hinf]; [apply (inv_start _ _ _ _ _ _ Hinv)|].
    assert (HP : is_Some (P !! v)).
    { apply elem_of_dom. rewrite HdomP, <- HdomD. apply elem_of_dom. eauto. }
    destruct HP as [[u|] HP]; [|done].
    destruct (pinv_some _ _ _ _ _ Hpinv v u HP) as (_ & x & y & _ & Hy & _).
    simpl in Hy. congruence.
  - intros v u. by apply (final_predecessor g start D P stamp bound).
Qed.

Lemma dijkstra_predecessors_are_tight_witness :
  ∃ D P,
    (∀ fuel, (enough_fuel weighted_triangle ≤ fuel)%nat →
       result (dijkstra fuel "A") weighted_triangle = Ok (D, P))
    ∧ (∀ v, is_Some (P !! v) ↔ is_Some (adjacency_list weighted_triangle !! v))
    ∧ (∀ v, P !! v = Some None ↔ v = "A" ∨ D !! v = Some Infinity)
    ∧ (∀ v u, P !! v = Some (Some u) →
         edge weighted_triangle u v
         ∧ ∃ x, D !! u = Some (Finite x)
                ∧ D !! v = Some (Finite (x + edge_weight weighted_triangle u v))).
Proof.
  apply (dijkstra_predecessors_are_tight weighted_triangle "A").
  - apply (bool_decide_unpack _). vm_compute. exact I.
  - apply (bool_decide_unpack _). vm_compute. exact I.
  - vm_compute. eexists. reflexivity.
Defined.

(** ** Neighbour lists and weights after a sequence of mutations *)

Lemma default_lookup_ensure x v (adj : gmap string (list string)) :
  default [] (ensure x adj !! v) = default [] (adj !! v).
Proof.
  unfold ensure. destruct (adj !! x) eqn:E; [done|].
  destruct (decide (x = v)) as [->|Hne].
  - by rewrite lookup_insert_eq, E.
  - by rewrite lookup_insert_ne.
Qed.

Lemma default_lookup_append a b v (adj : gmap string (list string)) :
  is_Some (adj !! a) →
  default [] (append a b adj !! v)
  = default [] (adj !! v) ++ (if bool_decide (a = v) then [b] else []).
Proof.
  intros [l Hl]. destruct (decide (a = v)) as [->|Hne].
  - rewrite (append_lookup_same _ _ l), Hl by done.
    by rewrite bool_decide_true.
  - rewrite append_lookup_ne, bool_decide_false by done. by rewrite app_nil_r.
Qed.

Lemma neighbors_after_add_edge s t w g v :
  default [] (adjacency_list (after_add_edge s t w g) !! v)
  = default [] (adjacency_list g !! v) ++ op_neighbors (directed g) v (AddEdge s t w).
Proof.
  unfold after_add_edge, op_neighbors.
  assert (Hs : is_Some (ensure t (ensure s (adjacency_list g)) !! s))
    by apply ensure_is_Some, ensure_lookup_same.
  assert (Ht : is_Some (ensure t (ensure s (adjacency_list g)) !! t))
    by apply ensure_lookup_same.
  destruct (directed g); simpl.
  - rewrite default_lookup_append, !default_lookup_ensure by done.
    by rewrite app_nil_r.
  - rewrite default_lookup_append by (by apply append_is_Some).
    rewrite default_lookup_append, !default_lookup_ensure by done.
    by rewrite app_assoc.
Qed.

Lemma neighbors_run_ops g ops v :
  default [] (adjacency_list (exec (run_ops ops) g) !! v)
  = default [] (adjacency_list g !! v) ++ neighbors_of (directed g) v ops.
Proof.
  revert g. induction ops as [|o ops IH]; intros g.
  - unfold neighbors_of. simpl. by rewrite app_nil_r.
  - rewrite exec_run_ops_cons, IH. unfold neighbors_of. simpl.
    fold (neighbors_of (directed g) v ops).
    destruct o as [x|s t w]; cbn [run_op].
    + rewrite exec_add_vertex. simpl. by rewrite default_lookup_ensure.
    + rewrite exec_add_edge, neighbors_after_add_edge, directed_after_add_edge.
      by rewrite app_assoc.
Qed.

(** X3. [add_vertex] and [add_edge] only ever append to neighbour lists:
    after any sequence of them, [get_adjacent_vertices(v)] returns the list
    it returned before followed by one entry per [add_edge] call touching
    [v], in call order: the target for a call with source [v], and, on an
    undirected graph, the source for a call with target [v] (both for a
    self-loop); repeated edges are repeated in the list. *)
Theorem adjacent_vertices_list_calls_in_order
    (g : Graph) (ops : list op) (v : string) :
  result (get_adjacent_vertices v) (exec (run_ops ops) g)
  = Ok (default [] (adjacency_list g !! v) ++ neighbors_of (directed g) v ops).
Proof.
  unfold result, get_adjacent_vertices, adjacency_get, reads. simpl. f_equal.
  apply neighbors_run_ops.
Qed.

Lemma edge_run_ops ops g u v :
  edge (exec (run_ops ops) g) u v
  ↔ edge g u v
    ∨ ∃ w, AddEdge u v w ∈ ops ∨ (directed g = false ∧ AddEdge v u w ∈ ops).
Proof.
  revert g. induction ops as [|o ops IH]; intros g.
  - simpl. split; [by left|]. intros [?|(w & [H|[_ H]])]; [done|..];
      by apply elem_of_nil in H.
  - rewrite exec_run_ops_cons, IH. destruct o as [x|s t w0]; cbn [run_op].
    + rewrite exec_add_vertex. unfold edge at 1. simpl.
      fold (nbr (ensure x (adjacency_list g)) u v). rewrite nbr_ensure.
      fold (edge g u v). split.
      * intros [?|(w & [H|[Hd H]])]; [by left|right; exists w..].
        -- left. by apply list_elem_of_further.
        -- right. split; [done|]. by apply list_elem_of_further.
      * intros [?|(w & [H|[Hd H]])]; [by left|right; exists w..].
        -- left. by apply elem_of_cons in H as [?|?].
        -- right. split; [done|]. by apply elem_of_cons in H as [?|?].
    + rewrite exec_add_edge, edge_after_add_edge, directed_after_add_edge. split.
      * intros [[?|[[-> ->]|(Hd & -> & ->)]]|(w & [H|[Hd H]])].
        -- by left.
        -- right. exists w0. left. apply list_elem_of_here.
        -- right. exists w0. right. split; [done|]. apply list_elem_of_here.
        -- right. exists w. left. by apply list_elem_of_further.
        -- right. exists w. right. split; [done|]. by apply list_elem_of_further.
      * intros [?|(w & [H|[Hd H]])].
        -- by left; left.
        -- apply elem_of_cons in H as [[= -> -> ->]|H].
           ++ left; right; left. done.
           ++ right. exists w. by left.
        -- apply elem_of_cons in H as [[= -> -> ->]|H].
           ++ left; right; right. done.
           ++ right. exists w. by right.
Qed.

(** X4. After a sequence of [add_vertex]/[add_edge] calls on an empty
    graph, [are_adjacent(u, v)] is true exactly when some call was
    [add_edge(u, v, _)], or, on an undirected graph, [add_edge(v, u, _)];
    in particular a directed [add_edge(u, v)] alone never makes
    [are_adjacent(v, u)] true, and vertices never mentioned are adjacent to
    nothing. *)
Theorem are_adjacent_iff_edge_was_added
    (d : bool) (ops : list op) (u v : string) :
  result (are_adjacent u v) (exec (run_ops ops) (init d)) = Ok true
  ↔ ∃ w, AddEdge u v w ∈ ops ∨ (d = false ∧ AddEdge v u w ∈ ops).
Proof.
  rewrite are_adjacent_edge, edge_run_ops. simpl. split; [|by right].
  intros [(l & Hl & _)|?]; [|done]. simpl in Hl. by rewrite lookup_empty in Hl.
Qed.

Lemma weight_after_op o g a b :
  edge_weights (exec (run_op o) g) !! (a, b)
  = match op_weight (directed g) a b o with
    | Some w => Some w
    | None => edge_weights g !! (a, b)
    end.
Proof.
  destruct o as [x|s t w]; cbn [run_op op_weight].
  - by rewrite exec_add_vertex.
  - rewrite exec_add_edge, weights_after_add_edge.
    destruct (directed g); cbn [negb andb].
    + rewrite orb_false_r. case_bool_decide as H.
      * rewrite H. by rewrite lookup_insert_eq.
      * by rewrite lookup_insert_ne.
    + case_bool_decide as H1; case_bool_decide as H2; cbn [orb].
      * rewrite H2. by rewrite lookup_insert_eq.
      * rewrite lookup_insert_ne by done. rewrite H1. by rewrite lookup_insert_eq.
      * rewrite H2. by rewrite lookup_insert_eq.
      * by rewrite !lookup_insert_ne.
Qed.

(** X5. The weight recorded for an ordered pair after a sequence of
    calls is the weight of the last [add_edge] call for that pair (in
    either direction on an undirected graph), whatever was recorded before;
    without such a call the entry is as it was.  Adding an edge again
    overwrites its weight. *)
Theorem last_add_edge_sets_the_weight
    (g : Graph) (ops : list op) (a b : string) :
  edge_weights (exec (run_ops ops) g) !! (a, b)
  = match last_weight (directed g) a b ops with
    | Some w => Some w
    | None => edge_weights g !! (a, b)
    end.
Proof.
  revert g. induction ops as [|o ops IH]; intros g; [done|].
  rewrite exec_run_ops_cons, IH. cbn [last_weight].
  assert (Hd : directed (exec (run_op o) g) = directed g).
  { destruct o; cbn [run_op].
    - by rewrite exec_add_vertex.
    - by rewrite exec_add_edge, directed_after_add_edge. }
  rewrite Hd. destruct (last_weight (directed g) a b ops); [done|].
  apply weight_after_op.
Qed.

(** ** Degrees *)

Lemma map_filter_size_sum (P : string * list string → Prop)
    `{!∀ x, Decision (P x)} (m : gmap string (list string)) :
  size (filter P m)
  = sum_list_with (λ item, if decide (P item) then 1 else 0)%nat (map_to_list m).
Proof.
  rewrite map_filter_alt, map_size_list_to_map.
  - generalize (map_to_list m). intros items.
    induction items as [|item items IH]; [done|].
    rewrite filter_cons. cbn [sum_list_with].
    destruct (decide (P item)); cbn [length]; by rewrite IH.
  - apply (sublist_NoDup _ (map_to_list m).*1).
    + apply NoDup_fst_map_to_list.
    + apply fmap_sublist, sublist_filter.
Qed.

Lemma elem_of_sources_of u v ops :
  u ∈ sources_of v ops ↔ ∃ w, AddEdge u v w ∈ ops.
Proof.
  unfold sources_of. rewrite list_elem_of_omap. split.
  - intros ([x|s t w] & Hin & Ho); [done|].
    case_bool_decide; [|done]. injection Ho as <-. subst. eauto.
  - intros (w & Hin). exists (AddEdge u v w). split; [done|].
    by rewrite bool_decide_true.
Qed.

Lemma in_degree_sum (g : Graph) v :
  sum_list_with (λ edges : list string,
                   if bool_decide (v ∈ edges) then 1 else 0)%nat
    (map_to_list (adjacency_list g)).*2
  = size (filter (λ item : string * list string, v ∈ item.2) (adjacency_list g)).
Proof.
  rewrite map_filter_size_sum.
  induction (map_to_list (adjacency_list g)) as [|[k l] items IH]; [done|].
  csimpl. rewrite IH. f_equal.
  destruct (decide (v ∈ l)).
  - by rewrite bool_decide_true.
  - by rewrite bool_decide_false.
Qed.

Lemma get_degree_run v g :
  get_degree v g
  = (Ok (if directed g
         then InOut (sum_list_with (λ edges : list string,
                                      if bool_decide (v ∈ edges) then 1 else 0)%nat
                       (map_to_list (adjacency_list g)).*2)
                    (length (default [] (adjacency_list g !! v)))
         else Plain (length (default [] (adjacency_list g !! v)))), g).
Proof. unfold get_degree, adjacency_get. munfold. by destruct (directed g). Qed.

Lemma in_degree_run_ops ops v :
  sum_list_with (λ edges : list string,
                   if bool_decide (v ∈ edges) then 1 else 0)%nat
    (map_to_list (adjacency_list (exec (run_ops ops) (init true)))).*2
  = length (remove_dups (sources_of v ops)).
Proof.
  rewrite in_degree_sum.
  rewrite <- (size_dom (D := gset string)).
  rewrite <- (size_list_to_set (C := gset string)) by apply NoDup_remove_dups.
  f_equal. apply set_eq. intros u.
  rewrite elem_of_list_to_set, elem_of_remove_dups, elem_of_sources_of.
  rewrite elem_of_dom. unfold is_Some.
  setoid_rewrite map_lookup_filter_Some. simpl.
  pose proof (edge_run_ops ops (init true) u v) as He. unfold edge in He.
  split.
  - intros (l & Hl & Hin). destruct (proj1 He) as [(l' & Hl' & _)|(w & [H|[? _]])];
      [by exists l| |by exists w|done].
    simpl in Hl'. by rewrite lookup_empty in Hl'.
  - intros (w & Hin). destruct (proj2 He) as (l & Hl & Hv); [|by exists l].
    right. exists w. by left.
Qed.

(** X6. On a graph built directed, [get_degree(v)] returns as out-degree
    the number of [add_edge] calls with source [v] (parallel edges counted
    each time), but as in-degree the number of distinct vertices that were
    source of a call with target [v]: parallel edges into [v] count once. *)
Theorem directed_degree_counts_sources_once (ops : list op) (v : string) :
  result (get_degree v) (exec (run_ops ops) (init true))
  = Ok (InOut (length (remove_dups (sources_of v ops)))
              (length (neighbors_of true v ops))).
Proof.
  unfold result. rewrite get_degree_run. cbn [fst].
  rewrite directed_run_ops. cbn [init directed].
  rewrite in_degree_run_ops, neighbors_run_ops. simpl.
  by rewrite lookup_empty.
Qed.

(** The parity of a sum is the parity of the number of odd terms. *)
Lemma degree_sum_parity (g : Graph) :
  Nat.even (degree_sum g) = Nat.even (odd_degree_count g).
Proof.
  rewrite odd_degree_count_list. unfold degree_sum.
  induction (map_to_list (adjacency_list g)) as [|[k l] items IH]; [done|].
  rewrite fmap_cons. cbn [sum_list_with snd]. rewrite Nat.even_add, IH.
  clear IH. rewrite filter_cons. cbn [snd].
  destruct (decide (length l mod 2 ≠ 0)%nat) as [Hodd|Heven]; cbn [sum_list_with].
  - assert (Nat.even (length l) = false) as ->.
    { rewrite <- Nat.negb_odd, Bool.negb_false_iff, Nat.odd_spec.
      exists (length l / 2)%nat.
      pose proof (Nat.div_mod_eq (length l) 2).
      pose proof (Nat.mod_upper_bound (length l) 2). lia. }
    rewrite (Nat.even_add 1). change (Nat.even 1) with false.
    by destruct (Nat.even _).
  - assert (Nat.even (length l) = true) as ->.
    { rewrite Nat.even_spec. exists (length l / 2)%nat.
      pose proof (Nat.div_mod_eq (length l) 2). lia. }
    by destruct (Nat.even _).
Qed.

(** X7. In a graph built undirected by [add_vertex]/[add_edge] calls the
    number of vertices of odd degree is even, so [is_eulerian] never meets
    exactly one (or three, ...) odd vertices there. *)
Theorem undirected_odd_degree_count_is_even (ops : list op) :
  Nat.even (odd_degree_count (exec (run_ops ops) (init false))) = true.
Proof.
  rewrite <- degree_sum_parity, degree_sum_run_ops.
  unfold degree_sum. cbn [init directed adjacency_list].
  rewrite map_to_list_empty. apply Nat.even_spec. by exists (edge_count ops).
Qed.

(** ** The [directed] flag *)

Lemma relax_same_edges g1 g2 cd cv neighbors st :
  adjacency_list g1 = adjacency_list g2 →
  edge_weights g1 = edge_weights g2 →
  result (relax cd cv neighbors st) g1 = result (relax cd cv neighbors st) g2.
Proof.
  intros Hadj Hw. unfold result. revert st.
  induction neighbors as [|n rest IH]; intros st; [done|].
  cbn [relax]. unfold mbind, M_bind, reads, dict_getitem, edge_weight.
  rewrite Hw. destruct (distances st !! n) as [known|]; [|done].
  unfold mret, M_ret. destruct (dist_lt _ known); apply IH.
Qed.

Lemma dijkstra_loop_same_edges g1 g2 fuel st :
  adjacency_list g1 = adjacency_list g2 →
  edge_weights g1 = edge_weights g2 →
  result (dijkstra_loop fuel st) g1 = result (dijkstra_loop fuel st) g2.
Proof.
  intros Hadj Hw. unfold result. revert st.
  induction fuel as [|fuel IH]; intros st; [done|].
  cbn [dijkstra_loop].
  destruct (heappop (priority_queue st)) as [[[cd cv] heap']|]; [|done].
  unfold adjacency_getitem, mbind, M_bind, reads. rewrite Hadj.
  destruct (adjacency_list g2 !! cv) as [neighbors|]; [|done].
  unfold mret, M_ret.
  pose proof (relax_same_edges g1 g2 cd cv neighbors
                (mkLocals (distances st) (predecessors st) heap') Hadj Hw) as Hr.
  pose proof (read_only_relax cd cv neighbors
                (mkLocals (distances st) (predecessors st) heap') g1) as H1.
  pose proof (read_only_relax cd cv neighbors
                (mkLocals (distances st) (predecessors st) heap') g2) as H2.
  unfold result, exec in *.
  destruct (relax cd cv neighbors _ g1) as [r1 h1].
  destruct (relax cd cv neighbors _ g2) as [r2 h2].
  simpl in *. subst. destruct r2; [apply IH|done|done].
Qed.

Lemma walk_back_any_graph g1 g2 fuel P acc v :
  result (walk_back fuel P acc v) g1 = result (walk_back fuel P acc v) g2.
Proof.
  unfold result. revert acc v. induction fuel as [|fuel IH]; intros acc v; [done|].
  cbn [walk_back]. unfold mbind, M_bind, dict_getitem.
  destruct (P !! v) as [[u|]|]; [|done|done].
  unfold mret at 1 3, M_ret at 1 3. apply IH.
Qed.

Lemma shortest_path_same_edges g1 g2 fuel a b :
  adjacency_list g1 = adjacency_list g2 →
  edge_weights g1 = edge_weights g2 →
  result (dijkstra fuel a) g1 = result (dijkstra fuel a) g2
  ∧ result (shortest_path fuel a b) g1 = result (shortest_path fuel a b) g2.
Proof.
  intros Hadj Hw.
  assert (Hd : result (dijkstra fuel a) g1 = result (dijkstra fuel a) g2).
  { unfold result, dijkstra, mbind, M_bind, reads. rewrite Hadj.
    by apply dijkstra_loop_same_edges. }
  split; [done|].
  pose proof (read_only_dijkstra fuel a g1) as H1.
  pose proof (read_only_dijkstra fuel a g2) as H2.
  unfold result, exec in *.
  destruct (dijkstra fuel a g1) as [r1 h1] eqn:E1.
  destruct (dijkstra fuel a g2) as [r2 h2] eqn:E2.
  simpl in *. subst.
  destruct r2 as [[D P]|e|].
  - rewrite (shortest_path_run _ _ _ _ D P E1), (shortest_path_run _ _ _ _ D P E2).
    destruct (D !! b) as [at_end|]; [|done].
    destruct (is_infinity at_end); [done|].
    pose proof (walk_back_any_graph g1 g2 fuel P [] b) as Hwalk.
    unfold result in Hwalk.
    destruct (walk_back fuel P [] b g1) as [[[p1 c1]| |] k1];
      destruct (walk_back fuel P [] b g2) as [[[p2 c2]| |] k2];
      simpl in *; by simplify_eq.
  - unfold shortest_path, mbind, M_bind. by rewrite E1, E2.
  - unfold shortest_path, mbind, M_bind. by rewrite E1, E2.
Qed.

(** X8. [dijkstra] and [shortest_path] never look at the [directed] flag:
    switching it with [toggle_directed] changes neither their result nor
    the exception they raise.  After the switch the edges are still
    followed exactly as they are listed. *)
Theorem shortest_paths_ignore_directed_flag
    (g : Graph) (value : bool) (fuel : nat) (a b : string) :
  result (dijkstra fuel a) (exec (toggle_directed value) g)
  = result (dijkstra fuel a) g
  ∧ result (shortest_path fuel a b) (exec (toggle_directed value) g)
    = result (shortest_path fuel a b) g.
Proof. by apply shortest_path_same_edges. Qed.

(** X9. [get_size] of a graph built directed by a sequence with [k]
    [add_edge] calls is [k].  Switching the flag afterwards changes the
    answer although no edge changes: a graph built undirected and switched
    to directed reports [2 * k], one built directed and switched to
    undirected reports [k / 2] rounded down. *)
Theorem size_after_toggle_directed (ops : list op) :
  result get_size (exec (run_ops ops) (init true)) = Ok (edge_count ops)
  ∧ result get_size (exec (toggle_directed true) (exec (run_ops ops) (init false)))
    = Ok (2 * edge_count ops)%nat
  ∧ result get_size (exec (toggle_directed false) (exec (run_ops ops) (init true)))
    = Ok (edge_count ops / 2)%nat.
Proof.
  assert (Hempty : degree_sum (init true) = 0%nat ∧ degree_sum (init false) = 0%nat).
  { unfold degree_sum. simpl. by rewrite map_to_list_empty. }
  destruct Hempty as [Ht Hf].
  unfold result. rewrite !get_size_run. cbn [fst].
  change (degree_sum (exec (toggle_directed true) ?h)) with (degree_sum h).
  change (degree_sum (exec (toggle_directed false) ?h)) with (degree_sum h).
  rewrite !degree_sum_run_ops, directed_run_ops, Ht, Hf.
  cbn [init directed exec toggle_directed modify snd negb].
  rewrite !Nat.div_1_r, !Nat.add_0_l, !Nat.mul_1_l. done.
Qed.

(** ** Distances in undirected graphs *)

Lemma edge_weight_symmetric g u v :
  symmetric g → edge g u v → edge_weight g u v = edge_weight g v u.
Proof.
  intros Hsym He. destruct (Hsym u v He) as (_ & w & Huv & Hvu).
  unfold edge_weight. by rewrite Huv, Hvu.
Qed.

Lemma path_cons g a u vs v d :
  edge g a u → path g u vs v d →
  path g a (a :: vs) v (edge_weight g a u + d).
Proof.
  intros He. induction 1 as [Hu|vs x v d _ IH Hxv].
  - replace (edge_weight g a u + 0) with (0 + edge_weight g a u) by lia.
    apply (path_step g a [a] a u 0); [|done].
    apply path_start. destruct He as (l & Hl & _). eauto.
  - replace (edge_weight g a u + (d + edge_weight g x v))
      with ((edge_weight g a u + d) + edge_weight g x v) by lia.
    by apply (path_step g a (a :: vs) x v).
Qed.

Lemma path_reverse g a vs b d :
  symmetric g → path g a vs b d → path g b (rev vs) a d.
Proof.
  intros Hsym. induction 1 as [Ha|vs u v d _ IH He].
  - by apply path_start.
  - rewrite rev_app_distr. simpl.
    rewrite (edge_weight_symmetric g u v Hsym He), Z.add_comm.
    apply path_cons; [|done]. by apply Hsym.
Qed.

(** X10. In a graph built undirected by [add_vertex]/[add_edge] calls
    with non-negative weights, [dijkstra] finds the same distance in both
    directions: the entry of [b] in the distances from [a] equals the entry
    of [a] in the distances from [b] (both finite and equal, or both
    infinite). *)
Theorem undirected_distances_are_symmetric (ops : list op) (a b : string) :
  let g := exec (run_ops ops) (init false) in
  Forall op_nonneg ops →
  is_Some (adjacency_list g !! a) →
  is_Some (adjacency_list g !! b) →
  ∃ Da Pa Db Pb,
    (∀ fuel, (enough_fuel g ≤ fuel)%nat →
       result (dijkstra fuel a) g = Ok (Da, Pa)
       ∧ result (dijkstra fuel b) g = Ok (Db, Pb))
    ∧ Da !! b = Db !! a.
Proof.
  intros g Hops Ha Hb.
  assert (Hclosed : closed g) by apply closed_run_ops, closed_init.
  assert (Hnonneg : nonneg g).
  { apply nonneg_run_ops; [done|]. apply map_Forall_empty. }
  assert (Hsym : symmetric g)
    by (apply symmetric_run_ops; [done|apply symmetric_init]).
  destruct (dijkstra_terminates g a Hnonneg Ha Hclosed) as (Da & Pa & Hruna & Hinva).
  destruct (dijkstra_terminates g b Hnonneg Hb Hclosed) as (Db & Pb & Hrunb & Hinvb).
  exists Da, Pa, Db, Pb. split.
  { intros fuel Hfuel. unfold result. by rewrite Hruna, Hrunb. }
  assert (Hone : ∀ x y Dx Px Dy Py z,
             inv g x 0 x [] (mkLocals Dx Px []) →
             inv g y 0 y [] (mkLocals Dy Py []) →
             is_Some (adjacency_list g !! x) →
             Dx !! y = Some (Finite z) → dle Dy x z).
  { intros x y Dx Px Dy Py z Hix Hiy Hx Hz.
    edestruct (final_finite g x) as [(vs & Hp & _) _]; [done..|].
    eapply (final_lower_bound g y); [done|].
    by apply path_reverse. }
  assert (HDa : is_Some (Da !! b)).
  { apply elem_of_dom. rewrite (inv_dom _ _ _ _ _ _ Hinva : dom Da = _).
    by apply elem_of_dom. }
  assert (HDb : is_Some (Db !! a)).
  { apply elem_of_dom. rewrite (inv_dom _ _ _ _ _ _ Hinvb : dom Db = _).
    by apply elem_of_dom. }
  destruct HDa as [[za|] HDa], HDb as [[zb|] HDb]; rewrite HDa, HDb.
  - destruct (Hone a b Da Pa Db Pb za Hinva Hinvb Ha HDa) as (z1 & H1 & Hle1).
    destruct (Hone b a Db Pb Da Pa zb Hinvb Hinva Hb HDb) as (z2 & H2 & Hle2).
    rewrite HDb in H1. rewrite HDa in H2. simplify_eq. do 2 f_equal. lia.
  - destruct (Hone a b Da Pa Db Pb za Hinva Hinvb Ha HDa) as (z1 & H1 & _).
    congruence.
  - destruct (Hone b a Db Pb Da Pa zb Hinvb Hinva Hb HDb) as (z2 & H2 & _).
    congruence.
  - done.
Qed.

Lemma undirected_distances_are_symmetric_witness :
  let g := exec (run_ops [AddEdge "A" "B" 1; AddEdge "B" "C" 2; AddEdge "A" "C" 5])
             (init false) in
  ∃ Da Pa Db Pb,
    (∀ fuel, (enough_fuel g ≤ fuel)%nat →
       result (dijkstra fuel "A") g = Ok (Da, Pa)
       ∧ result (dijkstra fuel "C") g = Ok (Db, Pb))
    ∧ Da !! "C" = Db !! "A".
Proof.
  apply (undirected_distances_are_symmetric
           [AddEdge "A" "B" 1; AddEdge "B" "C" 2; AddEdge "A" "C" 5] "A" "C").
  - repeat constructor; simpl; lia.
  - vm_compute. eexists. reflexivity.
  - vm_compute. eexists. reflexivity.
Defined.

(** ** The fields of an import line *)

Lemma split_go_space c s cur :
  is_space c = true →
  split_go (String c s) cur
  = match cur with
    | [] => split_go s []
    | _ => string_of_list_ascii (rev cur) :: split_go s []
    end.
Proof. intros Hc. cbn [split_go]. rewrite Hc. by destruct cur. Qed.

Lemma append_String c (w rest : string) :
  (String c w ++ rest)%string = String c (w ++ rest)%string.
Proof. reflexivity. Qed.

Lemma split_go_blank w rest :
  blank w = true → split_go (w ++ rest)%string [] = split_go rest [].
Proof.
  unfold blank. induction w as [|c w IH]; [done|].
  cbn [list_ascii_of_string forallb]. intros [Hc Hw]%andb_prop.
  rewrite append_String, split_go_space by done. by apply IH.
Qed.

Lemma split_go_separator w rest cur :
  separator w = true → cur ≠ [] →
  split_go (w ++ rest)%string cur
  = string_of_list_ascii (rev cur) :: split_go rest [].
Proof.
  unfold separator, blank. destruct w as [|c w]; [done|].
  cbn [String.eqb negb andb list_ascii_of_string forallb].
  intros [Hc Hw]%andb_prop Hcur.
  rewrite append_String, split_go_space by done.
  rewrite split_go_blank by done. by destruct cur.
Qed.

Lemma split_go_chars t rest cur :
  forallb (λ c, negb (is_space c)) (list_ascii_of_string t) = true →
  split_go (t ++ rest)%string cur
  = split_go rest (rev (list_ascii_of_string t) ++ cur).
Proof.
  revert cur. induction t as [|c t IH]; intros cur; [done|].
  cbn [list_ascii_of_string forallb]. intros [Hc Ht]%andb_prop.
  apply Bool.negb_true_iff in Hc.
  rewrite append_String. cbn [split_go]. rewrite Hc, IH by done.
  cbn [rev]. by rewrite <- app_assoc.
Qed.

Lemma token_chars t :
  token t = true →
  forallb (λ c, negb (is_space c)) (list_ascii_of_string t) = true
  ∧ list_ascii_of_string t ≠ [].
Proof.
  unfold token. intros [Hne Hall]%andb_prop. split; [done|].
  destruct t; [done|]. done.
Qed.

Lemma split_go_field t w rest :
  token t = true → separator w = true →
  split_go (t ++ w ++ rest)%string [] = t :: split_go rest [].
Proof.
  intros [Hall Hne]%token_chars Hw.
  rewrite split_go_chars by done. rewrite app_nil_r.
  rewrite split_go_separator; [|done|].
  - by rewrite rev_involutive, string_of_list_ascii_of_string.
  - intros Hrev. apply (f_equal (@rev ascii)) in Hrev.
    by rewrite rev_involutive in Hrev.
Qed.

Lemma split_go_last_field t w :
  token t = true → blank w = true →
  split_go (t ++ w)%string [] = [t].
Proof.
  intros [Hall Hne]%token_chars Hw.
  rewrite split_go_chars by done. rewrite app_nil_r.
  assert (Hcur : rev (list_ascii_of_string t) ≠ []).
  { intros Hrev. apply (f_equal (@rev ascii)) in Hrev.
    by rewrite rev_involutive in Hrev. }
  assert (Hend : split_go w [] = []).
  { clear -Hw. unfold blank in Hw. induction w as [|c w IH]; [done|].
    cbn [list_ascii_of_string forallb] in Hw. apply andb_prop in Hw as [Hc Hw].
    rewrite split_go_space by done. by apply IH. }
  destruct w as [|c w].
  - cbn [split_go]. destruct (rev (list_ascii_of_string t)) eqn:E; [done|].
    by rewrite <- E, rev_involutive, string_of_list_ascii_of_string.
  - unfold blank in Hw. cbn [list_ascii_of_string forallb] in Hw.
    apply andb_prop in Hw as [Hc Hw].
    rewrite split_go_space by done.
    assert (Hrest : split_go w [] = []).
    { rewrite split_go_space in Hend by done. done. }
    rewrite Hrest. destruct (rev (list_ascii_of_string t)) eqn:E; [done|].
    by rewrite <- E, rev_involutive, string_of_list_ascii_of_string.
Qed.

(** X11. On ASCII text the layout of a line does not matter to the
    importer: three fields without whitespace, separated by any non-empty
    runs of whitespace and surrounded by any whitespace (such as the line
    feed at the end of the line), are imported as the edge from the first
    field to the second with the integer value of the third. *)
Theorem load_line_ignores_layout
    (lead source sep1 target sep2 field trail : string) (w : Z) (g : Graph) :
  ascii_text (lead ++ source ++ sep1 ++ target ++ sep2 ++ field ++ trail)%string
  = true →
  blank lead = true → token source = true → separator sep1 = true →
  token target = true → separator sep2 = true → token field = true →
  blank trail = true → int field = Some w →
  load_line (lead ++ source ++ sep1 ++ target ++ sep2 ++ field ++ trail)%string g
  = add_edge source target w g.
Proof.
  intros _ Hlead Hsource Hsep1 Htarget Hsep2 Hfield Htrail Hint.
  unfold load_line, split.
  rewrite split_go_blank, !split_go_field, split_go_last_field by done.
  cbn [list_getitem lookup list_lookup]. unfold mbind, M_bind, mret, M_ret.
  by rewrite Hint.
Qed.

Lemma load_line_ignores_layout_witness :
  load_line ("  " ++ "A" ++ " " ++ "B" ++ "   " ++ "12" ++ newline)%string (init false)
  = add_edge "A" "B" 12 (init false).
Proof.
  apply (load_line_ignores_layout "  " "A" " " "B" "   " "12" newline 12 (init false));
    vm_compute; reflexivity.
Defined.

Lemma split_go_tokens s cur t :
  forallb (λ c, negb (is_space c)) cur = true →
  t ∈ split_go s cur → token t = true.
Proof.
  assert (Hflush : ∀ cur, forallb (λ c, negb (is_space c)) cur = true →
            cur ≠ [] → token (string_of_list_ascii (rev cur)) = true).
  { clear. intros cur Hcur Hne. unfold token.
    rewrite list_ascii_of_string_of_list_ascii. apply andb_true_intro. split.
    - destruct (rev cur) eqn:E; [|done].
      apply (f_equal (@rev ascii)) in E. by rewrite rev_involutive in E.
    - apply forallb_forall. intros c Hc. apply in_rev in Hc.
      by apply (proj1 (forallb_forall _ _) Hcur). }
  revert cur. induction s as [|c s IH]; intros cur Hcur.
  - cbn [split_go]. destruct cur as [|a cur]; [by intros ?%elem_of_nil|].
    intros ->%list_elem_of_singleton. by apply Hflush.
  - destruct (is_space c) eqn:Hc.
    + rewrite split_go_space by done. destruct cur as [|a cur].
      * by apply IH.
      * intros [->|Hin]%elem_of_cons; [by apply Hflush|by apply (IH [])].
    + cbn [split_go]. rewrite Hc. apply IH. cbn [forallb]. by rewrite Hc.
Qed.

Lemma load_line_new_vertices line g v :
  is_Some (adjacency_list (exec (load_line line) g) !! v) →
  is_Some (adjacency_list g !! v) ∨ token v = true.
Proof.
  unfold exec. rewrite load_line_run. unfold parse_line.
  pose proof (split_go_tokens line []) as Htok. fold (split line) in Htok.
  destruct (split line) as [|s [|t [|f rest]]]; try (by left).
  destruct (int f); [|by left]. cbn [snd].
  rewrite <- !elem_of_dom, dom_after_add_edge.
  intros [Hst|Hv]%elem_of_union; [right|by left].
  apply elem_of_union in Hst as [->%elem_of_singleton| ->%elem_of_singleton];
    apply Htok; try done.
  - apply list_elem_of_here.
  - apply list_elem_of_further, list_elem_of_here.
Qed.

(** X12. Every vertex that importing ASCII lines adds to the graph has a
    name that is not empty and contains no whitespace: a vertex of the
    graph after [load_from_file] was a vertex before, or its name is such a
    field. *)
Theorem imported_vertices_are_tokens
    (lines : list string) (g : Graph) (v : string) :
  forallb ascii_text lines = true →
  is_Some (adjacency_list (exec (load_from_file lines) g) !! v) →
  is_Some (adjacency_list g !! v) ∨ token v = true.
Proof.
  intros _. revert g. induction lines as [|line lines IH]; intros g; [by left|].
  unfold exec. cbn [load_from_file]. unfold mbind, M_bind.
  pose proof (load_line_new_vertices line g v) as Hline. unfold exec in Hline.
  destruct (load_line line g) as [[[]|e|] g1]; cbn [snd] in *;
    [|exact Hline..].
  intros Hv. destruct (IH g1 Hv) as [Hg1|?]; [by apply Hline|by right].
Qed.

Lemma imported_vertices_are_tokens_witness :
  is_Some (adjacency_list (init false) !! "B") ∨ token "B" = true.
Proof.
  apply (imported_vertices_are_tokens ["A B 1"] (init false) "B").
  - vm_compute. reflexivity.
  - vm_compute. eexists. reflexivity.
Defined.

(** X13. In an ASCII file, a line of whitespace only (an empty line, or
    the line feed left at the end of a file) has no fields: after lines
    that were imported, the import stops there with [IndexError], keeps the
    graph as the earlier lines left it, and reads none of the following
    lines. *)
Theorem blank_line_aborts_import
    (good : list string) (line : string) (rest : list string) (g : Graph) :
  forallb ascii_text good = true →
  forallb well_formed good = true → blank line = true →
  load_from_file (good ++ line :: rest) g
  = (Raise IndexError, exec (load_from_file good) g).
Proof.
  intros _ Hgood Hblank. rewrite load_from_file_app by done.
  cbn [load_from_file]. unfold mbind, M_bind, load_line, split.
  pose proof (split_go_blank line "" Hblank) as Hsplit.
  assert (Happ : ∀ s : string, (s ++ "")%string = s)
    by (induction s as [|c s IH]; [done|]; by rewrite append_String, IH).
  rewrite Happ in Hsplit. rewrite Hsplit. done.
Qed.

Lemma blank_line_aborts_import_witness :
  load_from_file (["A B 1"] ++ newline :: ["B C 2"]) (init false)
  = (Raise IndexError, exec (load_from_file ["A B 1"]) (init false)).
Proof.
  apply (blank_line_aborts_import ["A B 1"] newline ["B C 2"] (init false));
    vm_compute; reflexivity.
Defined.

(** ** Invariants of graphs built through the methods *)

Lemma weighted_edges_run_ops ops g :
  (∀ u v, edge g u v ↔ is_Some (edge_weights g !! (u, v))) →
  ∀ u v, edge (exec (run_ops ops) g) u v
         ↔ is_Some (edge_weights (exec (run_ops ops) g) !! (u, v)).
Proof.
  revert g. induction ops as [|o ops IH]; intros g Hg; [done|].
  rewrite exec_run_ops_cons. apply IH. intros u v.
  destruct o as [x|s t w]; cbn [run_op].
  - rewrite exec_add_vertex. unfold edge. simpl.
    fold (nbr (ensure x (adjacency_list g)) u v). rewrite nbr_ensure.
    apply Hg.
  - rewrite exec_add_edge, edge_after_add_edge, weights_after_add_edge, Hg.
    destruct (directed g).
    + destruct (decide ((s, t) = (u, v))) as [[= -> ->]|Hne].
      * rewrite lookup_insert_eq. split; [eauto|]. intros _. right; left. done.
      * rewrite lookup_insert_ne by done. split; [|by left].
        intros [?|[[-> ->]|[? _]]]; done.
    + destruct (decide ((t, s) = (u, v))) as [[= -> ->]|Hne1].
      * rewrite lookup_insert_eq. split; [eauto|]. intros _. right; right. done.
      * rewrite lookup_insert_ne by done.
        destruct (decide ((s, t) = (u, v))) as [[= -> ->]|Hne2].
        -- rewrite lookup_insert_eq. split; [eauto|]. intros _. right; left. done.
        -- rewrite lookup_insert_ne by done. split; [|by left].
           intros [?|[[-> ->]|(_ & -> & ->)]]; done.
Qed.

(** X14. In every graph built from an empty one by [add_vertex] and
    [add_edge] calls, each listed neighbour is itself a vertex (a key of
    [adjacency_list]), and a vertex lists a neighbour exactly when a weight
    is recorded for that ordered pair: no edge lacks a weight (the default
    weight 1 of [dijkstra] is never needed) and no weight lacks an edge. *)
Theorem built_graphs_are_well_formed (d : bool) (ops : list op) :
  let g := exec (run_ops ops) (init d) in
  closed g
  ∧ (∀ u v, edge g u v ↔ is_Some (edge_weights g !! (u, v)))
  ∧ (∀ u v, edge g u v → edge_weights g !! (u, v) = Some (edge_weight g u v)).
Proof.
  intros g.
  assert (Hw : ∀ u v, edge g u v ↔ is_Some (edge_weights g !! (u, v))).
  { apply weighted_edges_run_ops. intros u v. unfold edge. simpl.
    rewrite !lookup_empty. split; [by intros (? & ? & _)|by intros [? ?]]. }
  split; [apply closed_run_ops, closed_init|]. split; [done|].
  intros u v He. apply Hw in He as [w Hwv]. unfold edge_weight. by rewrite Hwv.
Qed.

Lemma built_graphs_are_well_formed_witness :
  let g := exec (run_ops [AddEdge "A" "B" 4; AddVertex "C"]) (init false) in
  edge_weights g !! ("B", "A") = Some (edge_weight g "B" "A").
Proof.
  apply (proj2 (proj2 (built_graphs_are_well_formed false
                         [AddEdge "A" "B" 4; AddVertex "C"])) "B" "A").
  exists ["A"]. split; [vm_compute; reflexivity|apply list_elem_of_here].
Defined.

(** ** [add_vertex] on its own *)

Lemma odd_degree_count_ensure v g :
  odd_degree_count (set_adjacency (ensure v) g) = odd_degree_count g.
Proof.
  unfold odd_degree_count, ensure. simpl.
  destruct (adjacency_list g !! v) eqn:E; [done|].
  rewrite map_filter_insert_False by (cbv; tauto).
  by rewrite delete_id.
Qed.

(** X15. [add_vertex] never touches an existing vertex: on a vertex that
    is already a key it changes nothing (its neighbour list is kept), so
    calling it twice is the same as calling it once; and on a new vertex it
    changes neither [get_size], nor the answer of [is_eulerian], nor the
    neighbour list of any other vertex. *)
Theorem add_vertex_is_idempotent_and_harmless (g : Graph) (v u : string) :
  (is_Some (adjacency_list g !! v) → exec (add_vertex v) g = g)
  ∧ exec (add_vertex v) (exec (add_vertex v) g) = exec (add_vertex v) g
  ∧ result get_size (exec (add_vertex v) g) = result get_size g
  ∧ result is_eulerian (exec (add_vertex v) g) = result is_eulerian g
  ∧ result (get_adjacent_vertices u) (exec (add_vertex v) g)
    = result (get_adjacent_vertices u) g.
Proof.
  assert (Hpresent : ∀ h, is_Some (adjacency_list h !! v) →
                          exec (add_vertex v) h = h).
  { intros h [l Hl]. rewrite exec_add_vertex. unfold set_adjacency, ensure.
    rewrite Hl. by destruct h. }
  split; [apply Hpresent|]. split; [|split; [|split]].
  - apply Hpresent. rewrite exec_add_vertex. simpl. apply ensure_lookup_same.
  - unfold result. rewrite !get_size_run, exec_add_vertex. cbn [fst].
    by rewrite degree_sum_ensure.
  - unfold result. rewrite !is_eulerian_run, exec_add_vertex. cbn [fst].
    by rewrite odd_degree_count_ensure.
  - rewrite exec_add_vertex.
    unfold result, get_adjacent_vertices, adjacency_get, reads. simpl.
    by rewrite default_lookup_ensure.
Qed.

Lemma add_vertex_is_idempotent_and_harmless_witness :
  exec (add_vertex "A") weighted_triangle = weighted_triangle.
Proof.
  apply (proj1 (add_vertex_is_idempotent_and_harmless weighted_triangle "A" "B")).
  vm_compute. eexists. reflexivity.
Defined.

(** ** Queries about a vertex that was never mentioned *)

Lemma neighbors_of_unknown d v ops :
  v ∉ ids_of ops → neighbors_of d v ops = [] ∧ sources_of v ops = [].
Proof.
  induction ops as [|o ops IH]; [done|]. intros Hv.
  change (ids_of (o :: ops)) with (op_ids o ++ ids_of ops) in Hv.
  apply not_elem_of_app in Hv as [Ho Hops]. destruct (IH Hops) as [IH1 IH2].
  change (neighbors_of d v (o :: ops))
    with (op_neighbors d v o ++ neighbors_of d v ops).
  rewrite IH1. destruct o as [x|s t w].
  - split; [done|]. exact IH2.
  - apply not_elem_of_cons in Ho as [Hs Ht%not_elem_of_cons].
    destruct Ht as [Ht _]. split.
    + cbn [op_neighbors]. rewrite !bool_decide_false by done.
      by rewrite andb_false_r.
    + unfold sources_of in *. cbn [omap list_omap].
      by rewrite bool_decide_false.
Qed.

(** X17. The plain queries tolerate a vertex that no call ever mentioned:
    on a graph built from an empty one, [get_adjacent_vertices] returns the
    empty list for it, [get_degree] returns 0 (in- and out-degree 0 on a
    directed graph), and [are_adjacent] is false with it on either side;
    none of them raises, unlike [dijkstra]. *)
Theorem queries_on_unknown_vertex (d : bool) (ops : list op) (v u : string) :
  v ∉ ids_of ops →
  let g := exec (run_ops ops) (init d) in
  result (get_adjacent_vertices v) g = Ok []
  ∧ result (get_degree v) g = Ok (if d then InOut 0 0 else Plain 0)
  ∧ result (are_adjacent v u) g = Ok false
  ∧ result (are_adjacent u v) g = Ok false.
Proof.
  intros Hv g.
  destruct (neighbors_of_unknown d v ops Hv) as [Hnb Hsrc].
  assert (Hlist : default [] (adjacency_list g !! v) = []).
  { subst g. rewrite neighbors_run_ops. simpl. by rewrite lookup_empty, Hnb. }
  assert (Hno : ∀ a b, (a = v ∨ b = v) → ¬ edge g a b).
  { intros a b Hab He. apply edge_run_ops in He as [(l & Hl & _)|(w & Hin)].
    - simpl in Hl. by rewrite lookup_empty in Hl.
    - apply Hv. unfold ids_of. apply list_elem_of_bind.
      destruct Hin as [Hin|[_ Hin]]; eexists; (split; [|exact Hin]); simpl;
        destruct Hab as [->| ->]; set_solver. }
  assert (Hadj : ∀ a b, (a = v ∨ b = v) → result (are_adjacent a b) g = Ok false).
  { intros a b Hab. unfold result. rewrite are_adjacent_run. cbn [fst].
    rewrite bool_decide_false; [done|]. intros Hin. apply (Hno a b Hab).
    destruct (adjacency_list g !! a) as [l|] eqn:E; simpl in Hin.
    - by exists l.
    - by apply elem_of_nil in Hin. }
  split; [|split; [|split; [by apply Hadj; left|by apply Hadj; right]]].
  - unfold result, get_adjacent_vertices, adjacency_get, reads. simpl.
    by rewrite Hlist.
  - unfold result. rewrite get_degree_run. cbn [fst]. subst g.
    rewrite directed_run_ops. cbn [init directed]. rewrite Hlist.
    destruct d; [|done]. by rewrite in_degree_run_ops, Hsrc.
Qed.

Lemma queries_on_unknown_vertex_witness :
  let g := exec (run_ops [AddEdge "A" "B" 1]) (init true) in
  result (get_adjacent_vertices "Z") g = Ok []
  ∧ result (get_degree "Z") g = Ok (InOut 0 0)
  ∧ result (are_adjacent "Z" "A") g = Ok false
  ∧ result (are_adjacent "A" "Z") g = Ok false.
Proof.
  apply (queries_on_unknown_vertex true [AddEdge "A" "B" 1] "Z" "A").
  vm_compute. intros H. repeat (apply elem_of_cons in H as [H|H]; [discriminate|]).
  by apply elem_of_nil in H.
Defined.
